(** * SparseMatrix: a CSR sparse matrix and its text codec

    Shallow embedding of [src/sparseMatrix.js], and of one turn of the menu
    of [src/main.js].

    Conventions of the embedding.
    - A JavaScript number that holds an integer is a [Z]; the arithmetic of
      the source ([+], [-], [*]) is the arithmetic of [Z], which is what
      the source computes as long as the magnitudes stay below 2^53.
    - An array of numbers is a [list Z]; an index is a [Z], as the source
      computes indices from the contents of [row_ptr].
    - Reading a slot that does not exist yields [undefined] in the source and
      what follows is no longer integer arithmetic; the embedding stops there
      with the error [Undefined].  The theorems on well-formed matrices show
      that the operations end with [Ok], so no such read happens there.
    - A thrown [Error] is an [Err]; there is one constructor per [throw] of
      the source.
    - A string is a [list ascii] (code units below 256).
    - The file system is left out: [loadFromFile] takes the content of the
      file and [saveToFile] returns the text it writes.  The terminal is
      left out as well: a turn of the menu takes the lines typed and returns
      what it writes or the error it shows.
    - A loop of the source is a [Fixpoint] on the number of iterations that
      remain, which the embedding computes from the loop bounds. *)

From Stdlib Require Import Ascii String.
From Stdlib Require Import ZArith List Bool Lia Sorted Permutation.
Import ListNotations.
Local Open Scope Z_scope.

(** ** Errors and the error monad *)

Inductive error : Type :=
| TooFewLines                         (* "File must contain at least rows and cols definitions" *)
| BadHeader                           (* "Invalid rows/cols format..." *)
| NonPositiveDims                     (* "Matrix dimensions must be positive integers" *)
| BadEntryShape (line : Z)            (* "Line n: Entries must be in format (row,col,value)" *)
| BadFieldCount (line : Z)            (* "Line n: Expected exactly 3 values (row,col,value)" *)
| NotIntegers (line : Z)              (* "Line n: All values must be integers" *)
| NegativeIndex (line : Z)            (* "Line n: Row and column indices must be non-negative" *)
| EntryOutOfBounds (line row col : Z) (* "Line n: Index out of bounds (row=.., col=..)..." *)
| IndicesOutOfBounds                  (* getElement, setElement: "Indices out of bounds" *)
| AddDimensions                       (* "Matrix dimensions must match for addition" *)
| SubtractDimensions                  (* "Matrix dimensions must match for subtraction" *)
| MultiplyDimensions                  (* "Columns of first matrix must match rows of second matrix" *)
| InvalidArrayLength                  (* RangeError of [Array(n)] for a negative n *)
| Undefined.                          (* a read of a missing array slot *)

Inductive result (A : Type) : Type :=
| Ok (a : A)
| Err (e : error).
Arguments Ok {A} a.
Arguments Err {A} e.

Definition bind {A B : Type} (m : result A) (k : A -> result B) : result B :=
  match m with
  | Ok a => k a
  | Err e => Err e
  end.

Notation "x <- m ;; k" := (bind m (fun x => k))
  (at level 61, m at next level, right associativity).
Notation "' p <- m ;; k" := (bind m (fun x => let p := x in k))
  (at level 61, p pattern, m at next level, right associativity).




(** ** Arrays *)

Definition len {A : Type} (a : list A) : Z := Z.of_nat (length a).

(** [a[i]] read as a number. *)
Definition read (a : list Z) (i : Z) : result Z :=
  if i <? 0 then Err Undefined
  else match nth_error a (Z.to_nat i) with
       | Some x => Ok x
       | None => Err Undefined
       end.

(** [a[i] = v]: in range it overwrites, at [a.length] it appends; further
    out the source leaves holes, which read as [undefined]. *)
Definition write (a : list Z) (i v : Z) : result (list Z) :=
  if i <? 0 then Err Undefined
  else if i <? len a then Ok (firstn (Z.to_nat i) a ++ v :: skipn (S (Z.to_nat i)) a)
  else if i =? len a then Ok (a ++ [v])
  else Err Undefined.

(** The start position [Array.prototype.splice] computes from its first
    argument: a negative one counts from the end, all are clamped. *)
Definition spliceStart (n pos : Z) : nat :=
  Z.to_nat (if pos <? 0 then Z.max (n + pos) 0 else Z.min pos n).

(** [a.splice(pos, 1)] *)
Definition spliceRemove (a : list Z) (pos : Z) : list Z :=
  let k := spliceStart (len a) pos in firstn k a ++ skipn (S k) a.

(** [a.splice(pos, 0, v)] *)
Definition spliceInsert (a : list Z) (pos v : Z) : list Z :=
  let k := spliceStart (len a) pos in firstn k a ++ v :: skipn k a.

(** [for (let i = from; i < a.length; i++) a[i] += d] for [from >= 0]. *)
Definition shiftFrom (d : Z) (a : list Z) (from : Z) : list Z :=
  firstn (Z.to_nat from) a ++ map (Z.add d) (skipn (Z.to_nat from) a).

(** [for (let i = from; i < from + n; i++) s = body(i, s)] *)
Fixpoint forRange {S : Type} (n : nat) (i : Z) (body : Z -> S -> result S) (s : S)
  : result S :=
  match n with
  | O => Ok s
  | S n' => s' <- body i s ;; forRange n' (i + 1) body s'
  end.

(** ** The matrix *)

Record SparseMatrix : Type := mkSparseMatrix {
  rows : Z;
  cols : Z;
  values : list Z;
  col_indices : list Z;
  row_ptr : list Z
}.

(** [new SparseMatrix(null, numRows, numCols)] *)
Definition emptyMatrix (numRows numCols : Z) : SparseMatrix :=
  {| rows := numRows;
     cols := numCols;
     values := [];
     col_indices := [];
     row_ptr := if numRows >? 0 then repeat 0 (Z.to_nat (numRows + 1)) else [0] |}.

Definition outOfBounds (M : SparseMatrix) (row col : Z) : bool :=
  (row <? 0) || (row >=? rows M) || (col <? 0) || (col >=? cols M).

(** [i + 1 < m.row_ptr.length ? m.row_ptr[i + 1] : m.values.length] *)
Definition rowEnd (M : SparseMatrix) (i : Z) : result Z :=
  if i + 1 <? len (row_ptr M) then read (row_ptr M) (i + 1)
  else Ok (len (values M)).

(** The loop of [getElement]: [fuel] is [end - i]. *)
Fixpoint getScan (ci vs : list Z) (col : Z) (fuel : nat) (i : Z) : result Z :=
  match fuel with
  | O => Ok 0
  | S f =>
      c <- read ci i ;;
      if c =? col then read vs i
      else getScan ci vs col f (i + 1)
  end.

Definition getElement (M : SparseMatrix) (row col : Z) : result Z :=
  if outOfBounds M row col then Err IndicesOutOfBounds
  else
    start <- read (row_ptr M) row ;;
    end_ <- rowEnd M row ;;
    getScan (col_indices M) (values M) col (Z.to_nat (end_ - start)) start.

(** [while (rp.length <= row + 1) rp.push(rp[rp.length - 1])] *)
Definition padRowPtr (rp : list Z) (row : Z) : result (list Z) :=
  if len rp <=? row + 1 then
    lastv <- read rp (len rp - 1) ;;
    Ok (rp ++ repeat lastv (Z.to_nat (row + 2 - len rp)))
  else Ok rp.

(** [while (pos < end && ci[pos] < col) pos++]: [fuel] is [end - pos]. *)
Fixpoint findPos (ci : list Z) (col : Z) (fuel : nat) (pos : Z) : result Z :=
  match fuel with
  | O => Ok pos
  | S f =>
      c <- read ci pos ;;
      if c <? col then findPos ci col f (pos + 1) else Ok pos
  end.

Definition setElement (M : SparseMatrix) (row col value : Z) : result SparseMatrix :=
  if outOfBounds M row col then Err IndicesOutOfBounds
  else
    rp <- padRowPtr (row_ptr M) row ;;
    start <- read rp row ;;
    end_ <- read rp (row + 1) ;;
    pos <- findPos (col_indices M) col (Z.to_nat (end_ - start)) start ;;
    present <- (if pos <? end_ then c <- read (col_indices M) pos ;; Ok (c =? col)
                else Ok false) ;;
    if present then
      if value =? 0 then
        Ok {| rows := rows M; cols := cols M;
              values := spliceRemove (values M) pos;
              col_indices := spliceRemove (col_indices M) pos;
              row_ptr := shiftFrom (-1) rp (row + 1) |}
      else
        vs <- write (values M) pos value ;;
        Ok {| rows := rows M; cols := cols M;
              values := vs;
              col_indices := col_indices M;
              row_ptr := rp |}
    else if negb (value =? 0) then
      Ok {| rows := rows M; cols := cols M;
            values := spliceInsert (values M) pos value;
            col_indices := spliceInsert (col_indices M) pos col;
            row_ptr := shiftFrom 1 rp (row + 1) |}
    else
      Ok {| rows := rows M; cols := cols M;
            values := values M;
            col_indices := col_indices M;
            row_ptr := rp |}.

(** ** Addition and subtraction *)

(** [add] and [subtract] are the same text in the source up to the value
    written for a column of the right operand alone ([onRight]) and for a
    column of both ([onBoth]). *)
Section RowMerge.
Variable onRight : Z -> Z.
Variable onBoth : Z -> Z -> Z.
Variables A B : SparseMatrix.

(** [while (p1 < selfEnd && p2 < otherEnd) {...}]: [fuel] is
    [(selfEnd - p1) + (otherEnd - p2)]. *)
Fixpoint mergeLoop (i e1 e2 : Z) (fuel : nat) (p1 p2 : Z) (R : SparseMatrix)
  : result (Z * Z * SparseMatrix) :=
  match fuel with
  | O => Ok (p1, p2, R)
  | S f =>
      if (p1 <? e1) && (p2 <? e2) then
        col1 <- read (col_indices A) p1 ;;
        col2 <- read (col_indices B) p2 ;;
        if col1 <? col2 then
          v <- read (values A) p1 ;;
          R' <- setElement R i col1 v ;;
          mergeLoop i e1 e2 f (p1 + 1) p2 R'
        else if col2 <? col1 then
          v <- read (values B) p2 ;;
          R' <- setElement R i col2 (onRight v) ;;
          mergeLoop i e1 e2 f p1 (p2 + 1) R'
        else
          v1 <- read (values A) p1 ;;
          v2 <- read (values B) p2 ;;
          R' <- (if negb (onBoth v1 v2 =? 0) then setElement R i col1 (onBoth v1 v2)
                 else Ok R) ;;
          mergeLoop i e1 e2 f (p1 + 1) (p2 + 1) R'
      else Ok (p1, p2, R)
  end.

(** [while (p < end) { result.setElement(i, X.col_indices[p], f(X.values[p])); p++ }] *)
Fixpoint drainLoop (f : Z -> Z) (X : SparseMatrix) (i : Z) (fuel : nat) (p : Z)
  (R : SparseMatrix) : result SparseMatrix :=
  match fuel with
  | O => Ok R
  | S fuel' =>
      c <- read (col_indices X) p ;;
      v <- read (values X) p ;;
      R' <- setElement R i c (f v) ;;
      drainLoop f X i fuel' (p + 1) R'
  end.

(** The body of [for (let i = 0; i < this.rows; i++)]. *)
Definition mergeRow (i : Z) (R : SparseMatrix) : result SparseMatrix :=
  selfStart <- read (row_ptr A) i ;;
  selfEnd <- rowEnd A i ;;
  otherStart <- read (row_ptr B) i ;;
  otherEnd <- rowEnd B i ;;
  '(p1, p2, R1) <- mergeLoop i selfEnd otherEnd
      (Z.to_nat (selfEnd - selfStart) + Z.to_nat (otherEnd - otherStart))
      selfStart otherStart R ;;
  R2 <- drainLoop (fun v => v) A i (Z.to_nat (selfEnd - p1)) p1 R1 ;;
  drainLoop onRight B i (Z.to_nat (otherEnd - p2)) p2 R2.

Definition mergeRows : result SparseMatrix :=
  forRange (Z.to_nat (rows A)) 0 mergeRow (emptyMatrix (rows A) (cols A)).
End RowMerge.

Definition add (this other : SparseMatrix) : result SparseMatrix :=
  if negb (rows this =? rows other) || negb (cols this =? cols other)
  then Err AddDimensions
  else mergeRows (fun v => v) Z.add this other.

Definition subtract (this other : SparseMatrix) : result SparseMatrix :=
  if negb (rows this =? rows other) || negb (cols this =? cols other)
  then Err SubtractDimensions
  else mergeRows Z.opp Z.sub this other.

(** ** Multiplication *)





(** [Array.prototype.sort] is stable; with a comparator that is a total
    preorder its result is the one stable ordering of the input, computed
    here by insertion.  [cmp a b] is the sign test [comparator(a, b) <= 0]. *)
Section StableSort.
Context {T : Type}.
Variable cmpLe : T -> T -> bool.

Fixpoint insertSorted (x : T) (l : list T) : list T :=
  match l with
  | [] => [x]
  | y :: l' => if cmpLe x y then x :: l else y :: insertSorted x l'
  end.

Definition stableSort (l : list T) : list T := fold_right insertSorted [] l.
End StableSort.





(** ** Strings *)

Definition text : Type := list ascii.

Definition str (s : string) : text := list_ascii_of_string s.

Definition code (c : ascii) : Z := Z.of_nat (nat_of_ascii c).

(** The characters [\s] and [trim] take for white space, among the code
    units below 256: TAB, LF, VT, FF, CR, space and NBSP. *)
Definition isWhite (c : ascii) : bool :=
  ((9 <=? code c) && (code c <=? 13)) || (code c =? 32) || (code c =? 160).

(** [\d] *)
Definition isDigit (c : ascii) : bool := (48 <=? code c) && (code c <=? 57).

Fixpoint takeWhile {T : Type} (p : T -> bool) (l : list T) : list T :=
  match l with
  | [] => []
  | x :: l' => if p x then x :: takeWhile p l' else []
  end.

Fixpoint dropWhile {T : Type} (p : T -> bool) (l : list T) : list T :=
  match l with
  | [] => []
  | x :: l' => if p x then dropWhile p l' else l
  end.

(** [s.trim()] *)
Definition trim (s : text) : text :=
  rev (dropWhile isWhite (rev (dropWhile isWhite s))).

(** [s.split(sep)] for a separator of one character. *)
Fixpoint splitOn (sep : ascii) (s : text) : list text :=
  match s with
  | [] => [[]]
  | c :: s' =>
      if Ascii.eqb c sep then [] :: splitOn sep s'
      else match splitOn sep s' with
           | h :: t => (c :: h) :: t
           | [] => [[c]]
           end
  end.

Definition isEmpty (s : text) : bool :=
  match s with [] => true | _ => false end.

(** [s.startsWith(c)] and [s.endsWith(c)] for one character. *)
Definition startsWith (c : ascii) (s : text) : bool :=
  match s with
  | x :: _ => Ascii.eqb x c
  | [] => false
  end.

Definition endsWith (c : ascii) (s : text) : bool := startsWith c (rev s).

(** [s.slice(1, -1)] *)
Definition sliceInner (s : text) : text := removelast (tl s).

(** [s.replace(/\s/g, '')] *)
Definition stripWhite (s : text) : text := filter (fun c => negb (isWhite c)) s.

(** Case folding of the [i] flag: among the code units below 256 only an
    ASCII letter matches an ASCII letter of the pattern. *)
Definition lower (c : ascii) : ascii :=
  if (65 <=? code c) && (code c <=? 90) then ascii_of_nat (nat_of_ascii c + 32) else c.

(** The literal part of the pattern (given in lower case) matched at the
    start of [s]; the result is what follows it. *)
Fixpoint matchLiteral (pat s : text) : option text :=
  match pat, s with
  | [], _ => Some s
  | p :: pat', c :: s' => if Ascii.eqb (lower c) p then matchLiteral pat' s' else None
  | _ :: _, [] => None
  end.

(** [s.match(/key(\d+)/i)]: the capture of the leftmost match, [None] for
    [null].  [\d+] is greedy. *)
Fixpoint matchKeyDigits (key s : text) : option text :=
  let here :=
    match matchLiteral key s with
    | Some rest =>
        match takeWhile isDigit rest with
        | [] => None
        | ds => Some ds
        end
    | None => None
    end in
  match here with
  | Some ds => Some ds
  | None =>
      match s with
      | [] => None
      | _ :: s' => matchKeyDigits key s'
      end
  end.

(** The value of a character as a digit in the given radix. *)
Definition digitVal (radix : Z) (c : ascii) : option Z :=
  let d := if isDigit c then code c - 48
           else if (97 <=? code c) && (code c <=? 122) then code c - 87
           else if (65 <=? code c) && (code c <=? 90) then code c - 55
           else radix in
  if d <? radix then Some d else None.

Definition isRadixDigit (radix : Z) (c : ascii) : bool :=
  match digitVal radix c with Some _ => true | None => false end.

Definition digitsValue (radix : Z) (ds : text) : Z :=
  fold_left (fun acc c => acc * radix + match digitVal radix c with
                                        | Some d => d
                                        | None => 0
                                        end) ds 0.

(** [parseInt(s)] without a radix: white space is skipped, then a sign, then
    [0x] or [0X] selects radix 16, then the longest prefix of digits is read;
    with no digit the result is [NaN], here [None]. *)
Definition parseInt (s : text) : option Z :=
  let s1 := dropWhile isWhite s in
  let '(sign, s2) :=
    match s1 with
    | c :: t => if Ascii.eqb c "-" then (-1, t)
                else if Ascii.eqb c "+" then (1, t)
                else (1, s1)
    | [] => (1, s1)
    end in
  let '(radix, s3) :=
    match s2 with
    | z :: x :: t =>
        if Ascii.eqb z "0" && (Ascii.eqb x "x" || Ascii.eqb x "X") then (16, t)
        else (10, s2)
    | _ => (10, s2)
    end in
  match takeWhile (isRadixDigit radix) s3 with
  | [] => None
  | ds => Some (sign * digitsValue radix ds)
  end.



(** ** The codec *)

Definition entry : Type := (Z * Z * Z)%type.

Definition newline : ascii := "010"%char.

(** The first half of the body of [for (let i = 2; i < lines.length; i++)]:
    the three fields of an entry line. *)
Definition parseFields (i : Z) (rawLine : text) : result entry :=
  let line := trim rawLine in
  if negb (startsWith "(" line && endsWith ")" line) then Err (BadEntryShape (i + 1))
  else
    let content := stripWhite (sliceInner line) in
    match splitOn "," content with
    | [p0; p1; p2] =>
        match parseInt p0, parseInt p1, parseInt p2 with
        | Some row, Some col, Some value => Ok (row, col, value)
        | _, _, _ => Err (NotIntegers (i + 1))
        end
    | _ => Err (BadFieldCount (i + 1))
    end.

(** The second half: the sign test, the boundary rule and the bounds. *)
Definition checkEntry (nrows ncols : Z) (i : Z) (e : entry) : result entry :=
  let '(row, col, value) := e in
  if (row <? 0) || (col <? 0) then Err (NegativeIndex (i + 1))
  else
    let col' := if col =? ncols then ncols - 1 else col in
    if (row >=? nrows) || (col' >=? ncols)
    then Err (EntryOutOfBounds (i + 1) row col')
    else Ok (row, col', value).

Definition parseEntry (nrows ncols : Z) (i : Z) (rawLine : text) : result entry :=
  e <- parseFields i rawLine ;;
  checkEntry nrows ncols i e.

Fixpoint parseEntries (nrows ncols : Z) (i : Z) (lines : list text)
  : result (list entry) :=
  match lines with
  | [] => Ok []
  | l :: ls =>
      e <- parseEntry nrows ncols i l ;;
      es <- parseEntries nrows ncols (i + 1) ls ;;
      Ok (e :: es)
  end.

(** [(a, b) => a[0] - b[0] || a[1] - b[1]] *)
Definition byRowThenCol (a b : entry) : bool :=
  let '(ra, ca, _) := a in
  let '(rb, cb, _) := b in
  (if negb (ra - rb =? 0) then ra - rb else ca - cb) <=? 0.

(** [for (const [row, col, value] of entries) this.setElement(row, col, value)] *)
Fixpoint populate (M : SparseMatrix) (entries : list entry) : result SparseMatrix :=
  match entries with
  | [] => Ok M
  | (row, col, value) :: rest =>
      M' <- setElement M row col value ;;
      populate M' rest
  end.

(** [content.split('\n').filter(line => line.trim() !== '')] *)
Definition contentLines (content : text) : list text :=
  filter (fun l => negb (isEmpty (trim l))) (splitOn newline content).

(** The two header lines: the dimensions, and the lines that remain. *)
Definition parseHeader (lines : list text) : result (Z * Z * list text) :=
  match lines with
  | l0 :: l1 :: rest =>
      match matchKeyDigits (str "rows=") l0, matchKeyDigits (str "cols=") l1 with
      | Some rd, Some cd =>
          match parseInt rd, parseInt cd with
          | Some r, Some c =>
              if (r <=? 0) || (c <=? 0) then Err NonPositiveDims
              else Ok (r, c, rest)
          | _, _ => Err InvalidArrayLength (* [\d+] always parses *)
          end
      | _, _ => Err BadHeader
      end
  | _ => Err TooFewLines
  end.

(** The dimensions and the entries of a file, in the order of the text,
    before the sort. *)
Definition parseText (content : text) : result (Z * Z * list entry) :=
  '(r, c, rest) <- parseHeader (contentLines content) ;;
  entries <- parseEntries r c 2 rest ;;
  Ok (r, c, entries).

(** [loadFromFile], given the content of the file. *)
Definition loadFromFile (this : SparseMatrix) (content : text) : result SparseMatrix :=
  '(r, c, entries) <- parseText content ;;
  populate {| rows := r; cols := c;
              values := values this; col_indices := col_indices this;
              row_ptr := repeat 0 (Z.to_nat (r + 1)) |}
           (stableSort byRowThenCol entries).

(** [new SparseMatrix(file)]: the [parse] of the specification. *)
Definition parse (content : text) : result SparseMatrix :=
  loadFromFile (emptyMatrix 0 0) content.




(** ** Concrete inputs *)

(** Lines joined by a newline, as in ["rows=2\ncols=2\n(0,0,1)"]. *)
Fixpoint joinLines (ls : list string) : text :=
  match ls with
  | [] => []
  | l :: rest =>
      match rest with
      | [] => str l
      | _ :: _ => str l ++ newline :: joinLines rest
      end
  end.


(** ** The invariants of the data model *)

(** The attributes: positive dimensions, [rowCount + 1] row pointers. *)
Definition shape (M : SparseMatrix) : Prop :=
  0 < rows M /\ 0 < cols M /\ len (row_ptr M) = rows M + 1.

(** I1: the positions of a row hold columns of the matrix, strictly
    increasing. *)
Definition I1 (M : SparseMatrix) : Prop :=
  forall r s e,
    0 <= r < rows M ->
    read (row_ptr M) r = Ok s -> read (row_ptr M) (r + 1) = Ok e ->
    (forall p, s <= p < e ->
       exists c, read (col_indices M) p = Ok c /\ 0 <= c < cols M) /\
    (forall p q cp cq, s <= p -> p < q -> q < e ->
       read (col_indices M) p = Ok cp -> read (col_indices M) q = Ok cq ->
       cp < cq).

(** I2: no stored value is zero. *)
Definition I2 (M : SparseMatrix) : Prop :=
  forall p v, read (values M) p = Ok v -> v <> 0.

(** I3: the row pointer does not decrease and ends at the length of the
    two entry arrays. *)
Definition I3 (M : SparseMatrix) : Prop :=
  (forall i a b, read (row_ptr M) i = Ok a -> read (row_ptr M) (i + 1) = Ok b -> a <= b) /\
  read (row_ptr M) (rows M) = Ok (len (values M)) /\
  len (values M) = len (col_indices M).

Definition Matrix_ok (M : SparseMatrix) : Prop :=
  shape M /\ I1 M /\ I2 M /\ I3 M.

(** An entry is stored at [(r, c)] when a position of row [r] holds
    column [c]. *)
Definition storedAt (M : SparseMatrix) (r c : Z) : Prop :=
  exists s e p,
    read (row_ptr M) r = Ok s /\ read (row_ptr M) (r + 1) = Ok e /\
    s <= p < e /\ read (col_indices M) p = Ok c.

(** ** Rows as association lists *)

(** A row as the list of its (column, value) pairs. *)
Definition row : Type := list (Z * Z).

(** The value of the first pair of column [col], 0 when there is none. *)
Fixpoint lookupRow (col : Z) (rw : row) : Z :=
  match rw with
  | [] => 0
  | (c, v) :: rw' => if c =? col then v else lookupRow col rw'
  end.

(** What [setElement] does to the row it works on. *)
Definition updRow (col value : Z) (rw : row) : row :=
  let lo := takeWhile (fun e => fst e <? col) rw in
  let hi := dropWhile (fun e => fst e <? col) rw in
  match hi with
  | (c, v) :: hi' =>
      if c =? col then
        if value =? 0 then lo ++ hi' else lo ++ (col, value) :: hi'
      else if negb (value =? 0) then lo ++ (col, value) :: hi
      else rw
  | [] => if negb (value =? 0) then lo ++ [(col, value)] else rw
  end.

(** The row pointer of rows laid out one after the other from offset [o]. *)
Fixpoint offsets (o : Z) (rws : list row) : list Z :=
  match rws with
  | [] => [o]
  | r :: rs => o :: offsets (o + len r) rs
  end.

(** [M] stores the rows [rws], after [pre] entries that belong to no row. *)
Record Rep (M : SparseMatrix) (pre : row) (rws : list row) : Prop := {
  rep_ci : col_indices M = map fst (pre ++ concat rws);
  rep_vs : values M = map snd (pre ++ concat rws);
  rep_rp : row_ptr M = offsets (len pre) rws;
  rep_rows : len rws = rows M
}.

Definition rowOk (ncols : Z) (rw : row) : Prop :=
  StronglySorted Z.lt (map fst rw) /\
  Forall (fun e => 0 <= fst e < ncols /\ snd e <> 0) rw.

(** ** Definitions used to state and prove the properties *)

Fixpoint starts (o : Z) (rws : list row) : list Z :=
  match rws with
  | [] => []
  | r :: rs => o :: starts (o + len r) rs
  end.

Definition slice {T : Type} (l : list T) (s e : Z) : list T :=
  firstn (Z.to_nat (e - s)) (skipn (Z.to_nat s) l).

(** The rows a row pointer cuts out of the entries. *)
Fixpoint cut (E : row) (rp : list Z) : list row :=
  match rp with
  | [] => []
  | s :: rest =>
      match rest with
      | [] => []
      | e :: _ => slice E s e :: cut E rest
      end
  end.

(** The value of a cell, 0 where [getElement] fails. *)
Definition cell (M : SparseMatrix) (r c : Z) : Z :=
  match getElement M r c with
  | Ok v => v
  | Err _ => 0
  end.

(** The value the last call for cell [(r, c)] wrote, [d] when there is none. *)
Fixpoint lastWrite (calls : list entry) (r c d : Z) : Z :=
  match calls with
  | [] => d
  | (r', c', v) :: rest =>
      lastWrite rest r c (if (r' =? r) && (c' =? c) then v else d)
  end.

Definition inBounds (R C : Z) (e : entry) : Prop :=
  let '(r, c, _) := e in 0 <= r < R /\ 0 <= c < C.

Definition rowCall (i : Z) (e : Z * Z) : entry := (i, fst e, snd e).

Section MergeOpsDef.
Variable onRight : Z -> Z.
Variable onBoth : Z -> Z -> Z.

(** The calls of [setElement] one row of the merge makes, as (column,
    value) pairs in the order of the calls. *)
Fixpoint mergeOps (fuel : nat) (ra rb : row) : row :=
  match fuel with
  | O => []
  | S f =>
      match ra, rb with
      | [], _ => map (fun e => (fst e, onRight (snd e))) rb
      | _, [] => ra
      | (c1, v1) :: ra', (c2, v2) :: rb' =>
          if c1 <? c2 then (c1, v1) :: mergeOps f ra' rb
          else if c2 <? c1 then (c2, onRight v2) :: mergeOps f ra rb'
          else (if negb (onBoth v1 v2 =? 0) then [(c1, onBoth v1 v2)] else [])
                 ++ mergeOps f ra' rb'
      end
  end.

Definition mergedRow (ra rb : row) : row :=
  mergeOps (length ra + length rb) ra rb.

Definition mergedRows (rwsA rwsB : list row) : list row :=
  map (fun p => mergedRow (fst p) (snd p)) (combine rwsA rwsB).
End MergeOpsDef.

















Definition exampleA : SparseMatrix :=
  {| rows := 2; cols := 2; values := [1; 2; 3]; col_indices := [0; 1; 1];
     row_ptr := [0; 2; 3] |}.

Definition exampleB : SparseMatrix :=
  {| rows := 2; cols := 2; values := [-1; 4; -3]; col_indices := [0; 0; 1];
     row_ptr := [0; 1; 3] |}.

(** No entry lies before the first row: [row_ptr[0]] is 0, as in every
    matrix the constructor, the loader and the operations build. *)
Definition compact (M : SparseMatrix) : Prop := read (row_ptr M) 0 = Ok 0.


(** ** The menu of [src/main.js]

    One turn of the [while (true)] loop of [main], with what is typed and
    what the files hold as arguments: the line typed for the choice, the
    contents of the two files whose paths [getValidFilePath] returns, and
    the line typed for the name of the output file.  What the turn prints is
    left out; what it writes into [outputs/] is the text of [MenuSaved]. *)



(** [a === b] on strings. *)
Fixpoint textEqb (a b : text) : bool :=
  match a, b with
  | [], [] => true
  | x :: a', y :: b' => Ascii.eqb x y && textEqb a' b'
  | _, _ => false
  end.


(** ** Lemmas on arrays *)

Lemma len_nil {A : Type} : len (@nil A) = 0.
Proof. reflexivity. Qed.

Lemma len_cons {A : Type} (x : A) l : len (x :: l) = 1 + len l.
Proof. unfold len. simpl length. lia. Qed.

Lemma len_app {A : Type} (l1 l2 : list A) : len (l1 ++ l2) = len l1 + len l2.
Proof. unfold len. rewrite length_app. lia. Qed.

Lemma len_map {A B : Type} (f : A -> B) l : len (map f l) = len l.
Proof. unfold len. now rewrite length_map. Qed.

Lemma len_nonneg {A : Type} (l : list A) : 0 <= len l.
Proof. unfold len. lia. Qed.

Lemma len_repeat {A : Type} (x : A) n : len (repeat x n) = Z.of_nat n.
Proof. unfold len. now rewrite repeat_length. Qed.

Create Rewrite HintDb len.
#[local] Hint Rewrite @len_nil @len_cons @len_app @len_map @len_repeat : len.

Ltac lens := autorewrite with len in *.

Lemma read_nat (a : list Z) (i : nat) :
  read a (Z.of_nat i) =
  match nth_error a i with Some x => Ok x | None => Err Undefined end.
Proof.
  unfold read. destruct (Z.ltb_spec (Z.of_nat i) 0); [lia |].
  now rewrite Nat2Z.id.
Qed.

Lemma read_Ok (a : list Z) (i x : Z) :
  read a i = Ok x <-> 0 <= i /\ nth_error a (Z.to_nat i) = Some x.
Proof.
  unfold read. destruct (Z.ltb_spec i 0).
  - split; [discriminate | lia].
  - destruct (nth_error a (Z.to_nat i)) eqn:E; split; intros H1;
      try discriminate; try (destruct H1; discriminate).
    + inversion H1; subst. auto.
    + destruct H1 as [_ H1]. now inversion H1.
Qed.

Lemma read_range (a : list Z) (i x : Z) : read a i = Ok x -> 0 <= i < len a.
Proof.
  intros H. apply read_Ok in H. destruct H as [H0 H].
  assert (Hlt : (Z.to_nat i < length a)%nat)
    by (apply nth_error_Some; congruence).
  unfold len. lia.
Qed.

Lemma read_in_range (a : list Z) (i : Z) : 0 <= i < len a -> exists x, read a i = Ok x.
Proof.
  intros H. unfold read. destruct (Z.ltb_spec i 0); [lia |].
  destruct (nth_error a (Z.to_nat i)) eqn:E; [eauto |].
  apply nth_error_None in E. unfold len in H. lia.
Qed.

Lemma read_app_l (X Y : list Z) (i : Z) :
  i < len X -> read (X ++ Y) i = read X i.
Proof.
  intros H. unfold read. destruct (Z.ltb_spec i 0); [reflexivity |].
  rewrite nth_error_app1; [reflexivity | unfold len in H; lia].
Qed.

Lemma read_app_r (X Y : list Z) (k : Z) :
  0 <= k -> read (X ++ Y) (len X + k) = read Y k.
Proof.
  intros H. unfold read, len.
  destruct (Z.ltb_spec (Z.of_nat (length X) + k) 0); [lia |].
  destruct (Z.ltb_spec k 0); [lia |].
  rewrite nth_error_app2 by lia.
  replace (Z.to_nat (Z.of_nat (length X) + k) - length X)%nat with (Z.to_nat k) by lia.
  reflexivity.
Qed.

Lemma read_middle (X Y : list Z) (y : Z) : read (X ++ y :: Y) (len X) = Ok y.
Proof.
  replace (len X) with (len X + 0) by lia.
  rewrite read_app_r by lia. reflexivity.
Qed.

Lemma read_In (a : list Z) (i x : Z) : read a i = Ok x -> In x a.
Proof. intros H. apply read_Ok in H. eapply nth_error_In, H. Qed.

Lemma In_read (a : list Z) (x : Z) : In x a -> exists i, read a i = Ok x.
Proof.
  intros H. apply In_nth_error in H. destruct H as [n Hn].
  exists (Z.of_nat n). now rewrite read_nat, Hn.
Qed.

Lemma spliceStart_mid (n pos : Z) : 0 <= pos <= n -> spliceStart n pos = Z.to_nat pos.
Proof.
  intros H. unfold spliceStart. destruct (Z.ltb_spec pos 0); [lia |].
  f_equal. lia.
Qed.

Lemma firstn_len_app {A : Type} (P Q : list A) : firstn (Z.to_nat (len P)) (P ++ Q) = P.
Proof.
  unfold len. rewrite Nat2Z.id.
  rewrite firstn_app, Nat.sub_diag, firstn_all. simpl. apply app_nil_r.
Qed.

Lemma skipn_len_app {A : Type} (P Q : list A) : skipn (Z.to_nat (len P)) (P ++ Q) = Q.
Proof.
  unfold len. rewrite Nat2Z.id.
  rewrite skipn_app, Nat.sub_diag, skipn_all. reflexivity.
Qed.

Lemma spliceRemove_middle (P Q : list Z) (x : Z) :
  spliceRemove (P ++ x :: Q) (len P) = P ++ Q.
Proof.
  unfold spliceRemove. rewrite spliceStart_mid.
  - rewrite firstn_len_app. f_equal.
    change (S (Z.to_nat (len P))) with (1 + Z.to_nat (len P))%nat.
    rewrite <- skipn_skipn, skipn_len_app. reflexivity.
  - lens. pose proof (len_nonneg P). pose proof (len_nonneg Q). lia.
Qed.

Lemma spliceInsert_middle (P Q : list Z) (v : Z) :
  spliceInsert (P ++ Q) (len P) v = P ++ v :: Q.
Proof.
  unfold spliceInsert. rewrite spliceStart_mid.
  - now rewrite firstn_len_app, skipn_len_app.
  - lens. pose proof (len_nonneg P). pose proof (len_nonneg Q). lia.
Qed.

Lemma write_middle (P Q : list Z) (x v : Z) :
  write (P ++ x :: Q) (len P) v = Ok (P ++ v :: Q).
Proof.
  unfold write. pose proof (len_nonneg P). pose proof (len_nonneg Q).
  destruct (Z.ltb_spec (len P) 0); [lia |].
  destruct (Z.ltb_spec (len P) (len (P ++ x :: Q))); [| lens; lia].
  rewrite firstn_len_app.
  change (S (Z.to_nat (len P))) with (1 + Z.to_nat (len P))%nat.
  rewrite <- skipn_skipn, skipn_len_app. reflexivity.
Qed.

(** ** Lemmas on the layout of rows *)

Lemma starts_length o rws : length (starts o rws) = length rws.
Proof. revert o. induction rws; intros; simpl; auto. Qed.

Lemma len_starts o rws : len (starts o rws) = len rws.
Proof. unfold len. now rewrite starts_length. Qed.

Lemma offsets_length o rws : length (offsets o rws) = S (length rws).
Proof. revert o. induction rws; intros; simpl; auto. Qed.

Lemma len_offsets o rws : len (offsets o rws) = len rws + 1.
Proof. unfold len. rewrite offsets_length. lia. Qed.

Lemma len_concat_cons (r : row) rs : len (concat (r :: rs)) = len r + len (concat rs).
Proof. simpl. now rewrite len_app. Qed.

Lemma offsets_app o (b a : list row) :
  offsets o (b ++ a) = starts o b ++ offsets (o + len (concat b)) a.
Proof.
  revert o. induction b as [| r b IH]; intros o; simpl.
  - f_equal. rewrite len_nil. lia.
  - rewrite IH. rewrite len_app. do 3 f_equal. lia.
Qed.

Lemma offsets_head o (a : list row) : exists t, offsets o a = o :: t.
Proof. destruct a; simpl; eauto. Qed.

Lemma map_add_offsets d o (a : list row) :
  map (Z.add d) (offsets o a) = offsets (d + o) a.
Proof.
  revert o. induction a as [| r a IH]; intros o; simpl; [reflexivity |].
  rewrite IH. do 2 f_equal. lia.
Qed.

Lemma read_offsets_start o (b a : list row) (rw : row) :
  read (offsets o (b ++ rw :: a)) (len b) = Ok (o + len (concat b)).
Proof.
  rewrite offsets_app. rewrite <- (len_starts o b).
  simpl offsets. apply read_middle.
Qed.

Lemma read_offsets_end o (b a : list row) (rw : row) :
  read (offsets o (b ++ rw :: a)) (len b + 1) = Ok (o + len (concat b) + len rw).
Proof.
  rewrite offsets_app. rewrite <- (len_starts o b).
  rewrite read_app_r by lia. simpl offsets.
  destruct (offsets_head (o + len (concat b) + len rw) a) as [t Ht].
  rewrite Ht. reflexivity.
Qed.

Lemma read_offsets_last o (rws : list row) :
  read (offsets o rws) (len rws) = Ok (o + len (concat rws)).
Proof.
  revert o. induction rws as [| r rws IH]; intros o.
  - unfold len, read. simpl. f_equal. lia.
  - rewrite len_cons. simpl offsets.
    replace (1 + len rws) with (len [o] + len rws) by (rewrite len_cons, len_nil; lia).
    change (o :: offsets (o + len r) rws) with ([o] ++ offsets (o + len r) rws).
    rewrite read_app_r by apply len_nonneg.
    rewrite IH. rewrite len_concat_cons. f_equal. lia.
Qed.

Lemma shiftFrom_offsets d o (b a : list row) (rw rw' : row) :
  len rw' = len rw + d ->
  shiftFrom d (offsets o (b ++ rw :: a)) (len b + 1) = offsets o (b ++ rw' :: a).
Proof.
  intros Hlen. rewrite !offsets_app. simpl offsets.
  unfold shiftFrom.
  set (o' := o + len (concat b)).
  replace (starts o b ++ o' :: offsets (o' + len rw) a)
    with ((starts o b ++ [o']) ++ offsets (o' + len rw) a)
    by (rewrite <- app_assoc; reflexivity).
  replace (len b + 1) with (len (starts o b ++ [o']))
    by (rewrite len_app, len_starts, len_cons, len_nil; lia).
  rewrite firstn_len_app, skipn_len_app, map_add_offsets.
  rewrite <- app_assoc. simpl. do 3 f_equal. lia.
Qed.

(** Splitting the rows at a row index. *)
Lemma split_rows (rws : list row) (r : Z) :
  0 <= r < len rws ->
  exists b rw a, rws = b ++ rw :: a /\ len b = r.
Proof.
  intros H. unfold len in H.
  destruct (nth_error rws (Z.to_nat r)) as [rw |] eqn:E.
  - apply nth_error_split in E. destruct E as (b & a & -> & Hb).
    exists b, rw, a. split; [reflexivity | unfold len; lia].
  - apply nth_error_None in E. lia.
Qed.

(** ** The loops of the accessor and the mutator on a stored row *)

Lemma read_map_middle {T : Type} (f : T -> Z) (P Q : list T) (x : T) :
  read (map f (P ++ x :: Q)) (len P) = Ok (f x).
Proof. rewrite map_app. simpl. rewrite <- (len_map f P). apply read_middle. Qed.

Section Scans.
Variables (X Y : row) (col : Z).

Lemma getScan_row (todo : row) : forall done : row,
  getScan (map fst (X ++ done ++ todo ++ Y)) (map snd (X ++ done ++ todo ++ Y))
    col (length todo) (len (X ++ done))
  = Ok (lookupRow col todo).
Proof.
  induction todo as [| [c v] todo IH]; intros done; simpl getScan; simpl lookupRow.
  - reflexivity.
  - replace (X ++ done ++ (c, v) :: todo ++ Y)
      with ((X ++ done) ++ (c, v) :: todo ++ Y) by (now rewrite <- app_assoc).
    rewrite read_map_middle. simpl bind. simpl fst.
    destruct (Z.eqb_spec c col).
    + now rewrite read_map_middle.
    + specialize (IH (done ++ [(c, v)])).
      replace ((X ++ done) ++ (c, v) :: todo ++ Y)
        with (X ++ (done ++ [(c, v)]) ++ todo ++ Y)
        by (rewrite <- !app_assoc; reflexivity).
      replace (len (X ++ done) + 1) with (len (X ++ done ++ [(c, v)]))
        by (rewrite !len_app, len_cons, len_nil; lia).
      exact IH.
Qed.

Lemma findPos_row (todo : row) : forall done : row,
  findPos (map fst (X ++ done ++ todo ++ Y)) col (length todo) (len (X ++ done))
  = Ok (len (X ++ done) + len (takeWhile (fun e => fst e <? col) todo)).
Proof.
  induction todo as [| [c v] todo IH]; intros done; simpl findPos; simpl takeWhile.
  - rewrite len_nil. f_equal. lia.
  - replace (X ++ done ++ (c, v) :: todo ++ Y)
      with ((X ++ done) ++ (c, v) :: todo ++ Y) by (now rewrite <- app_assoc).
    rewrite read_map_middle. simpl bind. simpl fst.
    destruct (Z.ltb_spec c col).
    + specialize (IH (done ++ [(c, v)])).
      replace ((X ++ done) ++ (c, v) :: todo ++ Y)
        with (X ++ (done ++ [(c, v)]) ++ todo ++ Y)
        by (rewrite <- !app_assoc; reflexivity).
      replace (len (X ++ done) + 1) with (len (X ++ done ++ [(c, v)]))
        by (rewrite !len_app, len_cons, len_nil; lia).
      rewrite IH. rewrite !len_app, !len_cons, len_nil. f_equal. lia.
    + rewrite len_nil. f_equal. lia.
Qed.
End Scans.

Lemma takeWhile_dropWhile {T : Type} (p : T -> bool) (l : list T) :
  takeWhile p l ++ dropWhile p l = l.
Proof. induction l as [| x l IH]; simpl; [reflexivity |]. destruct (p x); simpl; congruence. Qed.

Lemma dropWhile_head {T : Type} (p : T -> bool) (l : list T) x l' :
  dropWhile p l = x :: l' -> p x = false.
Proof.
  induction l as [| y l IH]; simpl; [discriminate |].
  destruct (p y) eqn:E; [exact IH |]. intros H. inversion H; subst. exact E.
Qed.

Lemma spliceInsert_map {T : Type} (f : T -> Z) (P Q : list T) (x : T) :
  spliceInsert (map f (P ++ Q)) (len P) (f x) = map f (P ++ x :: Q).
Proof.
  rewrite !map_app. simpl map. rewrite <- (len_map f P). apply spliceInsert_middle.
Qed.

Lemma spliceRemove_map {T : Type} (f : T -> Z) (P Q : list T) (x : T) :
  spliceRemove (map f (P ++ x :: Q)) (len P) = map f (P ++ Q).
Proof.
  rewrite !map_app. simpl map. rewrite <- (len_map f P). apply spliceRemove_middle.
Qed.

Lemma write_map {T : Type} (f : T -> Z) (P Q : list T) (x y : T) :
  write (map f (P ++ x :: Q)) (len P) (f y) = Ok (map f (P ++ y :: Q)).
Proof.
  rewrite !map_app. simpl map. rewrite <- (len_map f P). apply write_middle.
Qed.

Lemma Rep_bounds M pre b rw a :
  Rep M pre (b ++ rw :: a) -> 0 <= len b < rows M.
Proof.
  intros [_ _ _ Hrows]. rewrite <- Hrows, len_app, len_cons.
  pose proof (len_nonneg b). pose proof (len_nonneg a). lia.
Qed.

Lemma outOfBounds_false M r c :
  0 <= r < rows M -> 0 <= c < cols M -> outOfBounds M r c = false.
Proof.
  intros Hr Hc. unfold outOfBounds.
  destruct (Z.ltb_spec r 0); [lia |].
  destruct (Z.geb_spec r (rows M)); [lia |].
  destruct (Z.ltb_spec c 0); [lia |].
  destruct (Z.geb_spec c (cols M)); [lia | reflexivity].
Qed.

Lemma rowEnd_Rep M pre b rw a :
  Rep M pre (b ++ rw :: a) ->
  rowEnd M (len b) = Ok (len pre + len (concat b) + len rw).
Proof.
  intros HR. pose proof (Rep_bounds _ _ _ _ _ HR) as Hb.
  destruct HR as [_ _ Hrp Hrows]. unfold rowEnd.
  rewrite Hrp, len_offsets, Hrows.
  destruct (Z.ltb_spec (len b + 1) (rows M + 1)); [| lia].
  apply read_offsets_end.
Qed.

Lemma rowStart_Rep M pre b rw a :
  Rep M pre (b ++ rw :: a) ->
  read (row_ptr M) (len b) = Ok (len pre + len (concat b)).
Proof. intros [_ _ Hrp _]. rewrite Hrp. apply read_offsets_start. Qed.

Lemma Rep_entries M pre b rw a :
  Rep M pre (b ++ rw :: a) ->
  col_indices M = map fst ((pre ++ concat b) ++ rw ++ concat a) /\
  values M = map snd ((pre ++ concat b) ++ rw ++ concat a).
Proof.
  intros [Hci Hvs _ _]. rewrite Hci, Hvs, concat_app. simpl concat.
  rewrite <- !app_assoc. auto.
Qed.

(** [getElement] on a stored row is the lookup in its association list. *)
Lemma getElement_Rep M pre b rw a col :
  Rep M pre (b ++ rw :: a) -> 0 <= col < cols M ->
  getElement M (len b) col = Ok (lookupRow col rw).
Proof.
  intros HR Hcol. pose proof (Rep_bounds _ _ _ _ _ HR) as Hb.
  unfold getElement. rewrite outOfBounds_false by assumption.
  rewrite (rowStart_Rep _ _ _ _ _ HR), (rowEnd_Rep _ _ _ _ _ HR). simpl bind.
  destruct (Rep_entries _ _ _ _ _ HR) as [-> ->].
  replace (Z.to_nat (len pre + len (concat b) + len rw - (len pre + len (concat b))))
    with (length rw) by (unfold len; lia).
  pose proof (getScan_row (pre ++ concat b) (concat a) col rw []) as H.
  simpl app in H. rewrite app_nil_r in H. rewrite len_app in H. exact H.
Qed.

(** [setElement] on a stored row is [updRow] on its association list. *)
Lemma setElement_Rep M pre b rw a col value :
  Rep M pre (b ++ rw :: a) -> 0 <= col < cols M ->
  exists M',
    setElement M (len b) col value = Ok M' /\
    Rep M' pre (b ++ updRow col value rw :: a) /\
    rows M' = rows M /\ cols M' = cols M.
Proof.
  intros HR Hcol. pose proof (Rep_bounds _ _ _ _ _ HR) as Hb.
  pose proof (rowStart_Rep _ _ _ _ _ HR) as Hs.
  pose proof (rowEnd_Rep _ _ _ _ _ HR) as He.
  destruct (Rep_entries _ _ _ _ _ HR) as [Hci Hvs].
  destruct HR as [_ _ Hrp Hrows].
  assert (Hpad : padRowPtr (row_ptr M) (len b) = Ok (row_ptr M)).
  { unfold padRowPtr. rewrite Hrp, len_offsets, Hrows.
    destruct (Z.leb_spec (rows M + 1) (len b + 1)); [lia | reflexivity]. }
  assert (He' : read (row_ptr M) (len b + 1) = Ok (len pre + len (concat b) + len rw))
    by (rewrite Hrp; apply read_offsets_end).
  unfold setElement. rewrite outOfBounds_false by assumption.
  rewrite Hpad. cbn [bind]. rewrite Hs. cbn [bind]. rewrite He'. cbn [bind].
  replace (Z.to_nat (len pre + len (concat b) + len rw - (len pre + len (concat b))))
    with (length rw) by (unfold len; lia).
  set (X := pre ++ concat b) in *. set (Y := concat a) in *.
  assert (HlenX : len pre + len (concat b) = len X) by (unfold X; now rewrite len_app).
  rewrite HlenX.
  pose proof (findPos_row X Y col rw []) as Hf.
  simpl app in Hf. rewrite app_nil_r in Hf.
  rewrite <- Hci in Hf. rewrite Hf. cbn [bind]. clear Hf.
  pose proof (takeWhile_dropWhile (fun e => fst e <? col) rw) as Hsplit.
  unfold updRow.
  set (lo := takeWhile (fun e => fst e <? col) rw) in *.
  remember (dropWhile (fun e => fst e <? col) rw) as hi eqn:Hhi.
  assert (Hlenrw : len rw = len lo + len hi) by (rewrite <- Hsplit at 1; apply len_app).
  assert (HE : X ++ rw ++ Y = (X ++ lo) ++ hi ++ Y)
    by (rewrite <- Hsplit at 1; now rewrite <- !app_assoc).
  rewrite HE in Hci, Hvs.
  replace (len X + len lo) with (len (X ++ lo)) by apply len_app.
  assert (Hrep : forall (vs ci rp : list Z) (rw' : row),
             ci = map fst ((X ++ lo) ++ skipn (length lo) rw' ++ Y) ->
             vs = map snd ((X ++ lo) ++ skipn (length lo) rw' ++ Y) ->
             firstn (length lo) rw' = lo ->
             rp = offsets (len pre) (b ++ rw' :: a) ->
             Rep {| rows := rows M; cols := cols M; values := vs;
                    col_indices := ci; row_ptr := rp |} pre (b ++ rw' :: a)).
  { intros vs ci rp rw' H1 H2 H3 H4.
    assert (Hrw' : rw' = lo ++ skipn (length lo) rw')
      by (rewrite <- H3 at 1; symmetry; apply firstn_skipn).
    constructor; simpl.
    - rewrite H1, concat_app. simpl concat. rewrite Hrw' at 2.
      unfold X, Y. now rewrite <- !app_assoc.
    - rewrite H2, concat_app. simpl concat. rewrite Hrw' at 2.
      unfold X, Y. now rewrite <- !app_assoc.
    - exact H4.
    - rewrite <- Hrows. rewrite !len_app, !len_cons. reflexivity. }
  assert (Hfl : forall t : row, firstn (length lo) (lo ++ t) = lo)
    by (intros t; rewrite firstn_app, Nat.sub_diag, firstn_all; simpl; apply app_nil_r).
  assert (Hsl : forall t : row, skipn (length lo) (lo ++ t) = t)
    by (intros t; rewrite skipn_app, Nat.sub_diag, skipn_all; reflexivity).
  assert (Hins : value <> 0 ->
            Rep {| rows := rows M; cols := cols M;
                   values := spliceInsert (values M) (len (X ++ lo)) value;
                   col_indices := spliceInsert (col_indices M) (len (X ++ lo)) col;
                   row_ptr := shiftFrom 1 (row_ptr M) (len b + 1) |}
                pre (b ++ (lo ++ (col, value) :: hi) :: a)).
  { intros _. apply Hrep; rewrite ?Hsl, ?Hfl; auto.
    - rewrite Hci. apply (spliceInsert_map fst (X ++ lo) (hi ++ Y) (col, value)).
    - rewrite Hvs. apply (spliceInsert_map snd (X ++ lo) (hi ++ Y) (col, value)).
    - rewrite Hrp. apply shiftFrom_offsets.
      rewrite <- Hsplit. rewrite !len_app, !len_cons. lia. }
  assert (Hsame : Rep {| rows := rows M; cols := cols M; values := values M;
                         col_indices := col_indices M; row_ptr := row_ptr M |}
                    pre (b ++ rw :: a)).
  { apply Hrep; rewrite <- ?Hsplit, ?Hsl, ?Hfl; auto. now rewrite Hrp, Hsplit. }
  destruct hi as [| [c v] hi'].
  - (* the scan reached the end of the row *)
    destruct (Z.ltb_spec (len (X ++ lo)) (len X + len rw));
      [rewrite len_app, Hlenrw, len_nil in *; lia |].
    cbn [bind].
    destruct (Z.eqb_spec value 0); simpl negb; cbv iota.
    + eexists. split; [reflexivity |]. split; [exact Hsame | auto].
    + eexists. split; [reflexivity |]. split; [exact (Hins n) | auto].
  - assert (Hread : read (col_indices M) (len (X ++ lo)) = Ok c)
      by (rewrite Hci; apply (read_map_middle fst)).
    destruct (Z.ltb_spec (len (X ++ lo)) (len X + len rw));
      [| rewrite len_app, Hlenrw, len_cons in *; pose proof (len_nonneg hi'); lia].
    rewrite Hread. cbn [bind].
    destruct (Z.eqb_spec c col) as [-> | Hne]; cbv iota.
    + destruct (Z.eqb_spec value 0); cbv iota.
      * eexists. split; [reflexivity |]. split; [| auto].
        apply Hrep; rewrite ?Hsl, ?Hfl; auto.
        -- rewrite Hci. apply spliceRemove_map.
        -- rewrite Hvs. apply spliceRemove_map.
        -- rewrite Hrp. apply shiftFrom_offsets.
           rewrite <- Hsplit. rewrite !len_app, len_cons. lia.
      * assert (Hw : write (values M) (len (X ++ lo)) value
                     = Ok (map snd ((X ++ lo) ++ (col, value) :: hi' ++ Y)))
          by (rewrite Hvs; apply (write_map snd _ _ (col, v) (col, value))).
        rewrite Hw. cbn [bind].
        eexists. split; [reflexivity |]. split; [| auto].
        apply Hrep; rewrite ?Hsl, ?Hfl; auto.
        -- rewrite Hci. rewrite !map_app. reflexivity.
        -- rewrite Hrp. rewrite !offsets_app. simpl offsets.
           rewrite <- Hsplit. rewrite !len_app, !len_cons. reflexivity.
    + destruct (Z.eqb_spec value 0); simpl negb; cbv iota.
      * eexists. split; [reflexivity |]. split; [exact Hsame | auto].
      * eexists. split; [reflexivity |]. split; [exact (Hins n) | auto].
Qed.

(** ** Lemmas on rows as association lists *)

Lemma SS_app (l1 l2 : list Z) :
  StronglySorted Z.lt (l1 ++ l2) <->
  StronglySorted Z.lt l1 /\ StronglySorted Z.lt l2 /\
  (forall x y, In x l1 -> In y l2 -> x < y).
Proof.
  induction l1 as [| a l1 IH]; simpl.
  - split; [intros H; repeat split; [constructor | exact H | tauto] | tauto].
  - split.
    + intros H. apply StronglySorted_inv in H. destruct H as [H1 H2].
      apply IH in H1. destruct H1 as (Ha & Hb & Hc).
      rewrite Forall_forall in H2.
      repeat split; auto.
      * constructor; [exact Ha |]. apply Forall_forall. intros x Hx.
        apply H2, in_or_app. auto.
      * intros x y [-> | Hx] Hy; [apply H2, in_or_app; auto | auto].
    + intros (Ha & Hb & Hc). apply StronglySorted_inv in Ha. destruct Ha as [Ha1 Ha2].
      constructor.
      * apply IH. repeat split; auto.
      * rewrite Forall_forall in *. intros x Hx. apply in_app_or in Hx.
        destruct Hx; auto.
Qed.

Lemma takeWhile_Forall {T : Type} (p : T -> bool) (l : list T) :
  Forall (fun x => p x = true) (takeWhile p l).
Proof.
  induction l as [| x l IH]; simpl; [constructor |].
  destruct (p x) eqn:E; constructor; auto.
Qed.

Lemma lookupRow_below col (lo t : row) :
  Forall (fun e => fst e < col) lo -> lookupRow col (lo ++ t) = lookupRow col t.
Proof.
  induction 1 as [| [c v] lo Hc _ IH]; simpl; [reflexivity |].
  simpl in Hc. destruct (Z.eqb_spec c col); [lia | exact IH].
Qed.

Lemma lookupRow_above col (t : row) :
  Forall (fun e => col < fst e) t -> lookupRow col t = 0.
Proof.
  induction 1 as [| [c v] t Hc _ IH]; simpl; [reflexivity |].
  simpl in Hc. destruct (Z.eqb_spec c col); [lia | exact IH].
Qed.

Lemma lookupRow_other c col v (l1 l2 : row) :
  c <> col -> lookupRow c (l1 ++ (col, v) :: l2) = lookupRow c (l1 ++ l2).
Proof.
  intros Hne. induction l1 as [| [c1 v1] l1 IH]; simpl.
  - destruct (Z.eqb_spec col c); [congruence | reflexivity].
  - now rewrite IH.
Qed.


Section UpdRow.
Variables (col value : Z) (rw : row).

Let lo := takeWhile (fun e => fst e <? col) rw.
Let hi := dropWhile (fun e => fst e <? col) rw.

Lemma lo_below : Forall (fun e => fst e < col) lo.
Proof.
  pose proof (takeWhile_Forall (fun e => fst e <? col) rw) as H.
  eapply Forall_impl; [| exact H]. simpl. intros e He. now apply Z.ltb_lt.
Qed.

Lemma hi_above c v hi' :
  StronglySorted Z.lt (map fst rw) -> hi = (c, v) :: hi' ->
  col <= c /\ Forall (fun e => c < fst e) hi'.
Proof.
  intros Hs Hhi. split.
  - apply dropWhile_head in Hhi. simpl in Hhi. now apply Z.ltb_ge.
  - pose proof (takeWhile_dropWhile (fun e => fst e <? col) rw) as Hsplit.
    fold lo hi in Hsplit. rewrite <- Hsplit, Hhi, map_app in Hs.
    apply SS_app in Hs. destruct Hs as (_ & Hs & _).
    simpl in Hs. apply StronglySorted_inv in Hs. destruct Hs as [_ Hs].
    rewrite Forall_forall in *. intros e He. apply Hs.
    apply in_map_iff. eauto.
Qed.

(** After the update the row holds [value] at [col]. *)
Lemma lookupRow_updRow_same :
  StronglySorted Z.lt (map fst rw) -> lookupRow col (updRow col value rw) = value.
Proof.
  intros Hs. pose proof lo_below as Hlo.
  pose proof (takeWhile_dropWhile (fun e => fst e <? col) rw) as Hsplit.
  fold lo hi in Hsplit.
  unfold updRow. fold lo hi.
  destruct hi as [| [c v] hi'] eqn:Hhi.
  - destruct (Z.eqb_spec value 0); simpl negb; cbv iota.
    + rewrite <- Hsplit, lookupRow_below by assumption. simpl. congruence.
    + rewrite lookupRow_below by assumption. simpl. now rewrite Z.eqb_refl.
  - destruct (hi_above c v hi' Hs Hhi) as [Hc Hhi'].
    destruct (Z.eqb_spec c col) as [-> | Hne].
    + destruct (Z.eqb_spec value 0).
      * rewrite lookupRow_below by assumption.
        rewrite lookupRow_above by assumption. congruence.
      * rewrite lookupRow_below by assumption. simpl. now rewrite Z.eqb_refl.
    + destruct (Z.eqb_spec value 0); simpl negb; cbv iota.
      * rewrite <- Hsplit, lookupRow_below by assumption. simpl.
        destruct (Z.eqb_spec c col); [congruence |].
        rewrite lookupRow_above; [congruence |].
        eapply Forall_impl; [| exact Hhi']. simpl. intros. lia.
      * rewrite lookupRow_below by assumption. simpl. now rewrite Z.eqb_refl.
Qed.

(** The other columns of the row keep their value. *)
Lemma lookupRow_updRow_other c :
  c <> col -> lookupRow c (updRow col value rw) = lookupRow c rw.
Proof.
  intros Hne.
  pose proof (takeWhile_dropWhile (fun e => fst e <? col) rw) as Hsplit.
  fold lo hi in Hsplit.
  unfold updRow. fold lo hi.
  destruct hi as [| [c1 v1] hi'] eqn:Hhi.
  - destruct (Z.eqb_spec value 0); simpl negb; cbv iota; [reflexivity |].
    rewrite lookupRow_other by assumption. now rewrite <- Hsplit.
  - destruct (Z.eqb_spec c1 col) as [-> | Hne1].
    + destruct (Z.eqb_spec value 0).
      * rewrite <- Hsplit. now rewrite lookupRow_other.
      * rewrite <- Hsplit. now rewrite !lookupRow_other.
    + destruct (Z.eqb_spec value 0); simpl negb; cbv iota; [reflexivity |].
      rewrite lookupRow_other by assumption. now rewrite <- Hsplit.
Qed.

(** The update keeps a row sorted, within the columns, free of zeros. *)
Lemma rowOk_updRow ncols :
  0 <= col < ncols -> rowOk ncols rw -> rowOk ncols (updRow col value rw).
Proof.
  intros Hcol [Hs Hf]. pose proof lo_below as Hlo.
  pose proof (takeWhile_dropWhile (fun e => fst e <? col) rw) as Hsplit.
  fold lo hi in Hsplit.
  assert (Hss : StronglySorted Z.lt (map fst lo) /\ StronglySorted Z.lt (map fst hi) /\
                forall x y, In x (map fst lo) -> In y (map fst hi) -> x < y)
    by (apply SS_app; rewrite <- map_app, Hsplit; exact Hs).
  destruct Hss as (Hslo & Hshi & Hcross).
  assert (Hflo : Forall (fun e => 0 <= fst e < ncols /\ snd e <> 0) lo /\
                 Forall (fun e => 0 <= fst e < ncols /\ snd e <> 0) hi)
    by (apply Forall_app; rewrite Hsplit; exact Hf).
  destruct Hflo as [Hflo Hfhi].
  assert (Hlo_lt : forall x, In x (map fst lo) -> x < col).
  { intros x Hx. apply in_map_iff in Hx. destruct Hx as (e & <- & He).
    rewrite Forall_forall in Hlo. now apply Hlo. }
  assert (Hins : forall t : row,
             value <> 0 -> StronglySorted Z.lt (map fst t) ->
             Forall (fun e => col < fst e) t ->
             Forall (fun e => 0 <= fst e < ncols /\ snd e <> 0) t ->
             rowOk ncols (lo ++ (col, value) :: t)).
  { intros t Hv Hst Hat Hft. split.
    - rewrite map_app. simpl map. apply SS_app. repeat split; auto.
      + constructor; [exact Hst |].
        rewrite Forall_forall in *. intros x Hx.
        apply in_map_iff in Hx. destruct Hx as (e & <- & He). now apply Hat.
      + intros x y Hx [<- | Hy]; [auto |].
        apply in_map_iff in Hy. destruct Hy as (e & <- & He).
        rewrite Forall_forall in Hat. specialize (Hat e He).
        specialize (Hlo_lt x Hx). lia.
    - apply Forall_app. split; [exact Hflo |]. constructor; [simpl; lia | exact Hft]. }
  unfold updRow. fold lo hi.
  destruct hi as [| [c v] hi'] eqn:Hhi.
  - destruct (Z.eqb_spec value 0); simpl negb; cbv iota; [now split |].
    apply Hins; auto; constructor.
  - destruct (hi_above c v hi' Hs Hhi) as [Hc Hhi'].
    simpl in Hshi. apply StronglySorted_inv in Hshi. destruct Hshi as [Hshi' _].
    apply Forall_cons_iff in Hfhi. destruct Hfhi as [Hfc Hfhi'].
    destruct (Z.eqb_spec c col) as [-> | Hne].
    + destruct (Z.eqb_spec value 0).
      * split.
        -- rewrite map_app. apply SS_app. repeat split; auto.
           intros x y Hx Hy. apply Hcross; simpl; auto.
        -- apply Forall_app. now split.
      * apply Hins; auto.
    + destruct (Z.eqb_spec value 0); simpl negb; cbv iota; [now split |].
      apply Hins; auto.
      * simpl. constructor; [exact Hshi' |].
        rewrite Forall_forall in *. intros x Hx.
        apply in_map_iff in Hx. destruct Hx as (e & <- & He). now apply Hhi'.
      * constructor; [simpl; lia |].
        eapply Forall_impl; [| exact Hhi']. simpl. intros. lia.
Qed.
End UpdRow.

(** ** The invariants and the layout of rows *)

Lemma read_map_inside {T : Type} (f : T -> Z) (X rw Y : list T) (k : nat) (x : T) :
  nth_error rw k = Some x ->
  read (map f (X ++ rw ++ Y)) (len X + Z.of_nat k) = Ok (f x).
Proof.
  intros H. rewrite map_app, <- (len_map f X), read_app_r by lia.
  rewrite read_nat, map_app, nth_error_app1.
  - now rewrite nth_error_map, H.
  - rewrite length_map. apply nth_error_Some. congruence.
Qed.

Lemma SS_nth (l : list Z) : StronglySorted Z.lt l ->
  forall i j a b, (i < j)%nat -> nth_error l i = Some a -> nth_error l j = Some b -> a < b.
Proof.
  induction 1 as [| x l Hs IH Hf]; intros i j a b Hij Hi Hj.
  - destruct i; discriminate.
  - destruct j as [| j]; [lia |]. simpl in Hj.
    destruct i as [| i]; simpl in Hi.
    + inversion Hi; subst. rewrite Forall_forall in Hf.
      apply Hf. eapply nth_error_In, Hj.
    + eapply IH; [| exact Hi | exact Hj]. lia.
Qed.

Lemma SS_of_nth (l : list Z) :
  (forall i j a b, (i < j)%nat -> nth_error l i = Some a -> nth_error l j = Some b -> a < b) ->
  StronglySorted Z.lt l.
Proof.
  induction l as [| x l IH]; intros H; constructor.
  - apply IH. intros i j a b Hij Hi Hj. apply (H (S i) (S j)); auto. lia.
  - apply Forall_forall. intros y Hy. apply In_nth_error in Hy.
    destruct Hy as [k Hk]. apply (H 0%nat (S k)); auto. lia.
Qed.

Lemma offsets_mono (rws : list row) : forall o i a b,
  nth_error (offsets o rws) i = Some a ->
  nth_error (offsets o rws) (S i) = Some b -> a <= b.
Proof.
  induction rws as [| r rws IH]; intros o i a b Ha Hb; simpl in *.
  - destruct i; discriminate.
  - destruct i as [| i]; simpl in *.
    + inversion Ha; subst. destruct (offsets_head (a + len r) rws) as [t Ht].
      rewrite Ht in Hb. simpl in Hb. inversion Hb; subst.
      pose proof (len_nonneg r). lia.
    + eapply IH; eauto.
Qed.

Lemma Forall_concat {T : Type} (P : T -> Prop) (ls : list (list T)) :
  Forall (Forall P) ls -> Forall P (concat ls).
Proof. induction 1; simpl; [constructor | apply Forall_app; auto]. Qed.

Lemma read_rowEnd_Rep M pre b rw a :
  Rep M pre (b ++ rw :: a) ->
  read (row_ptr M) (len b + 1) = Ok (len pre + len (concat b) + len rw).
Proof. intros [_ _ Hrp _]. rewrite Hrp. apply read_offsets_end. Qed.

Lemma Rep_I1 M pre rws :
  Rep M pre rws -> Forall (rowOk (cols M)) rws -> I1 M.
Proof.
  intros HR Hok r s e Hr Hs He. pose proof HR as [Hci Hvs Hrp Hrows].
  destruct (split_rows rws r) as (b & rw & a & -> & Hb); [lia |]. subst r.
  rewrite (rowStart_Rep _ _ _ _ _ HR) in Hs. inversion Hs; subst s. clear Hs.
  rewrite (read_rowEnd_Rep _ _ _ _ _ HR) in He. inversion He; subst e. clear He.
  destruct (Rep_entries _ _ _ _ _ HR) as [Hci' _].
  apply Forall_app in Hok. destruct Hok as [_ Hok].
  apply Forall_cons_iff in Hok. destruct Hok as [[Hsort Hrw] _].
  rewrite <- len_app in *.
  set (X := pre ++ concat b) in *.
  split.
  - intros p Hp.
    assert (Hk : (Z.to_nat (p - len X) < length rw)%nat) by (unfold len in *; lia).
    apply nth_error_Some in Hk.
    destruct (nth_error rw (Z.to_nat (p - len X))) as [x |] eqn:Ex; [| congruence].
    exists (fst x). split.
    + rewrite Hci'.
      replace p with (len X + Z.of_nat (Z.to_nat (p - len X))) at 1 by lia.
      now apply read_map_inside.
    + rewrite Forall_forall in Hrw. apply Hrw. eapply nth_error_In, Ex.
  - intros p q cp cq Hp Hpq Hq Hcp Hcq.
    rewrite Hci' in Hcp, Hcq. rewrite map_app in Hcp, Hcq.
    rewrite <- (len_map fst X) in Hp, Hq.
    set (XX := map fst X) in *.
    replace p with (len XX + (p - len XX)) in Hcp by lia.
    replace q with (len XX + (q - len XX)) in Hcq by lia.
    rewrite read_app_r in Hcp, Hcq by lia.
    rewrite map_app in Hcp, Hcq.
    rewrite read_app_l in Hcp, Hcq by (rewrite len_map; lia).
    apply read_Ok in Hcp, Hcq.
    eapply (SS_nth _ Hsort); [| apply Hcp | apply Hcq]. lia.
Qed.

Lemma Rep_I2 M pre rws :
  Rep M pre rws -> Forall (rowOk (cols M)) rws -> Forall (fun e => snd e <> 0) pre -> I2 M.
Proof.
  intros [Hci Hvs Hrp Hrows] Hok Hpre p v Hp.
  rewrite Hvs in Hp. apply read_In in Hp.
  apply in_map_iff in Hp. destruct Hp as ([c v'] & <- & Hin). simpl.
  apply in_app_or in Hin. destruct Hin as [Hin | Hin].
  - rewrite Forall_forall in Hpre. apply (Hpre _ Hin).
  - assert (Hall : Forall (fun e => 0 <= fst e < cols M /\ snd e <> 0) (concat rws)).
    { apply Forall_concat. eapply Forall_impl; [| exact Hok].
      intros rw [_ H]. exact H. }
    rewrite Forall_forall in Hall. apply (Hall _ Hin).
Qed.

Lemma Rep_I3 M pre rws : Rep M pre rws -> I3 M.
Proof.
  intros [Hci Hvs Hrp Hrows]. repeat split.
  - intros i a b Ha Hb. rewrite Hrp in Ha, Hb.
    apply read_Ok in Ha, Hb. destruct Ha as [Hi Ha]. destruct Hb as [_ Hb].
    replace (Z.to_nat (i + 1)) with (S (Z.to_nat i)) in Hb by lia.
    eapply offsets_mono; eauto.
  - rewrite Hrp, <- Hrows, read_offsets_last, Hvs, len_map, len_app. reflexivity.
  - now rewrite Hci, Hvs, !len_map.
Qed.

(** Sorted rows within the columns and without zeros make a matrix of the
    data model. *)
Lemma Rep_Matrix_ok M pre rws :
  Rep M pre rws -> Forall (rowOk (cols M)) rws -> Forall (fun e => snd e <> 0) pre ->
  0 < cols M -> 0 < rows M -> Matrix_ok M.
Proof.
  intros HR Hok Hpre Hc Hr. split; [| split; [| split]].
  - repeat split; auto. destruct HR as [_ _ Hrp Hrows].
    rewrite Hrp, len_offsets. lia.
  - eapply Rep_I1; eauto.
  - eapply Rep_I2; eauto.
  - eapply Rep_I3; eauto.
Qed.

(** *** From the invariants to the layout *)

Lemma firstn_add {T : Type} (a b : nat) (l : list T) :
  firstn (a + b) l = firstn a l ++ firstn b (skipn a l).
Proof.
  revert l. induction a as [| a IH]; intros l; simpl; [reflexivity |].
  destruct l; simpl; [now rewrite firstn_nil | now rewrite IH].
Qed.

Lemma len_slice {T : Type} (l : list T) (s e : Z) :
  0 <= s -> s <= e -> e <= len l -> len (slice l s e) = e - s.
Proof.
  intros H0 H1 H2. unfold slice, len in *.
  rewrite length_firstn, length_skipn. lia.
Qed.

Lemma slice_app {T : Type} (l : list T) (s m e : Z) :
  0 <= s -> s <= m -> m <= e -> slice l s m ++ slice l m e = slice l s e.
Proof.
  intros H0 H1 H2. unfold slice.
  replace (Z.to_nat (e - s)) with (Z.to_nat (m - s) + Z.to_nat (e - m))%nat by lia.
  rewrite firstn_add, skipn_skipn. do 3 f_equal. lia.
Qed.

Lemma cut_length (E : row) (rest : list Z) : forall s,
  length (cut E (s :: rest)) = length rest.
Proof.
  induction rest as [| e rest IH]; intros s; [reflexivity |].
  change (cut E (s :: e :: rest)) with (slice E s e :: cut E (e :: rest)).
  cbn [length]. now rewrite IH.
Qed.

Lemma last_cons (rest : list Z) : forall e s, last (e :: rest) s = last rest e.
Proof.
  induction rest as [| x rest IH]; intros e s; [reflexivity |].
  change (last (e :: x :: rest) s) with (last (x :: rest) s).
  now rewrite !IH.
Qed.

Lemma cut_spec (E : row) (rest : list Z) : forall s,
  Sorted Z.le (s :: rest) ->
  Forall (fun x => 0 <= x <= len E) (s :: rest) ->
  offsets s (cut E (s :: rest)) = s :: rest /\
  concat (cut E (s :: rest)) = slice E s (last rest s) /\
  s <= last rest s.
Proof.
  induction rest as [| e rest IH]; intros s Hs Hb.
  - simpl. unfold slice. rewrite Z.sub_diag. simpl. repeat split; auto. lia.
  - change (cut E (s :: e :: rest)) with (slice E s e :: cut E (e :: rest)).
    apply Sorted_inv in Hs. destruct Hs as [Hs Hhd]. apply HdRel_inv in Hhd.
    apply Forall_cons_iff in Hb. destruct Hb as [Hbs Hb].
    pose proof Hb as Hbe. apply Forall_cons_iff in Hbe. destruct Hbe as [Hbe _].
    destruct (IH e Hs Hb) as (IH1 & IH2 & IH3).
    cbn [offsets]. rewrite len_slice by lia.
    replace (s + (e - s)) with e by lia. rewrite IH1.
    rewrite (last_cons rest e s). repeat split; [| lia].
    cbn [concat]. rewrite IH2. apply slice_app; lia.
Qed.

Lemma read_last (rest : list Z) : forall s,
  read (s :: rest) (len rest) = Ok (last rest s).
Proof.
  induction rest as [| e rest IH]; intros s; [reflexivity |].
  rewrite len_cons.
  change (s :: e :: rest) with ([s] ++ e :: rest).
  replace (1 + len rest) with (len [s] + len rest) by reflexivity.
  rewrite read_app_r by apply len_nonneg. rewrite IH.
  now rewrite last_cons.
Qed.

Lemma Sorted_of_adjacent (l : list Z) :
  (forall i a b, nth_error l i = Some a -> nth_error l (S i) = Some b -> a <= b) ->
  Sorted Z.le l.
Proof.
  induction l as [| x l IH]; intros H; constructor.
  - apply IH. intros i a b Ha Hb. apply (H (S i)); auto.
  - destruct l as [| y l]; constructor. apply (H 0%nat); reflexivity.
Qed.

Lemma map_fst_combine {A B : Type} (l : list A) : forall l' : list B,
  length l = length l' -> map fst (combine l l') = l.
Proof.
  induction l as [| x l IH]; intros [| y l'] H; simpl in *; try discriminate; auto.
  f_equal. apply IH. lia.
Qed.

Lemma map_snd_combine {A B : Type} (l : list A) : forall l' : list B,
  length l = length l' -> map snd (combine l l') = l'.
Proof.
  induction l as [| x l IH]; intros [| y l'] H; simpl in *; try discriminate; auto.
  f_equal. apply IH. lia.
Qed.

(** Every row pointer of a matrix of the data model is a position of the
    entry arrays. *)
Lemma row_ptr_bounds M : Matrix_ok M ->
  forall i a, read (row_ptr M) i = Ok a -> 0 <= a <= len (values M).
Proof.
  intros ((Hr & Hc & Hl) & H1 & H2 & (Hmono & Hlast & Hlen)).
  assert (H : forall (k : nat) i a,
             Z.to_nat (rows M - i) = k -> read (row_ptr M) i = Ok a ->
             0 <= a <= len (values M)).
  { induction k as [| k IH]; intros i a Hk Ha;
      pose proof (read_range _ _ _ Ha) as Hi.
    - assert (i = rows M) by lia. subst i. rewrite Hlast in Ha.
      inversion Ha. pose proof (len_nonneg (values M)). lia.
    - destruct (read_in_range (row_ptr M) (i + 1)) as [b Hb]; [lia |].
      assert (Hbb : 0 <= b <= len (values M)) by (apply (IH (i + 1)); [lia | exact Hb]).
      pose proof (Hmono i a b Ha Hb) as Hab.
      destruct (Z_lt_le_dec a 0) as [Hneg | Hpos]; [| lia].
      destruct (H1 i a b) as [Hex _]; [lia | exact Ha | exact Hb |].
      destruct (Hex a) as (c & Hc' & _); [lia |].
      apply read_range in Hc'. lia. }
  intros i a Ha. eapply H; [reflexivity | exact Ha].
Qed.

Lemma Rep_rowOk M pre b rw a :
  Rep M pre (b ++ rw :: a) -> I1 M -> I2 M -> rowOk (cols M) rw.
Proof.
  intros HR H1 H2. pose proof (Rep_bounds _ _ _ _ _ HR) as Hb.
  destruct (H1 (len b) _ _ Hb (rowStart_Rep _ _ _ _ _ HR) (read_rowEnd_Rep _ _ _ _ _ HR))
    as [Hrange Hsort].
  destruct (Rep_entries _ _ _ _ _ HR) as [Hci Hvs].
  rewrite <- len_app in *. set (X := pre ++ concat b) in *.
  assert (Hlt : forall k e, nth_error rw k = Some e -> Z.of_nat k < len rw).
  { intros k e Hk. assert (k < length rw)%nat by (apply nth_error_Some; congruence).
    unfold len. lia. }
  split.
  - apply SS_of_nth. intros i j x y Hij Hi Hj.
    rewrite nth_error_map in Hi, Hj.
    destruct (nth_error rw i) as [ei |] eqn:Ei; [| discriminate].
    destruct (nth_error rw j) as [ej |] eqn:Ej; [| discriminate].
    simpl in Hi, Hj. inversion Hi; inversion Hj; subst.
    apply (Hsort (len X + Z.of_nat i) (len X + Z.of_nat j)); try lia.
    + specialize (Hlt _ _ Ej). lia.
    + rewrite Hci. now apply read_map_inside.
    + rewrite Hci. now apply read_map_inside.
  - apply Forall_forall. intros e Hin. apply In_nth_error in Hin.
    destruct Hin as [k Hk]. pose proof (Hlt _ _ Hk). split.
    + destruct (Hrange (len X + Z.of_nat k)) as (c & Hc & Hcr); [lia |].
      rewrite Hci, (read_map_inside fst X rw (concat a) k e Hk) in Hc.
      inversion Hc; subst. exact Hcr.
    + apply (H2 (len X + Z.of_nat k)). rewrite Hvs. now apply read_map_inside.
Qed.

(** A matrix of the data model stores sorted rows within the columns and
    without zeros. *)
Lemma Matrix_ok_Rep M : Matrix_ok M ->
  exists pre rws,
    Rep M pre rws /\ Forall (rowOk (cols M)) rws /\ Forall (fun e => snd e <> 0) pre.
Proof.
  intros Hok. pose proof (row_ptr_bounds M Hok) as Hbounds.
  destruct Hok as ((Hr & Hc & Hl) & H1 & H2 & (Hmono & Hlast & Hlen)).
  set (E := combine (col_indices M) (values M)).
  assert (HlenE : len E = len (values M)).
  { unfold E, len in *. rewrite length_combine. lia. }
  assert (Hfst : map fst E = col_indices M)
    by (apply map_fst_combine; unfold len in Hlen; lia).
  assert (Hsnd : map snd E = values M)
    by (apply map_snd_combine; unfold len in Hlen; lia).
  destruct (row_ptr M) as [| s rest] eqn:Hrp.
  { rewrite len_nil in Hl. lia. }
  assert (Hsorted : Sorted Z.le (s :: rest)).
  { apply Sorted_of_adjacent. intros i a b Ha Hb.
    apply (Hmono (Z.of_nat i)).
    - now rewrite read_nat, Ha.
    - replace (Z.of_nat i + 1) with (Z.of_nat (S i)) by lia. now rewrite read_nat, Hb. }
  assert (Hall : Forall (fun x => 0 <= x <= len E) (s :: rest)).
  { apply Forall_forall. intros x Hx. apply In_read in Hx. destruct Hx as [i Hi].
    rewrite HlenE. eapply Hbounds, Hi. }
  destruct (cut_spec E rest s Hsorted Hall) as (Hoff & Hcat & Hle).
  assert (Hrows : rows M = len rest) by (rewrite len_cons in Hl; lia).
  assert (Hlast' : last rest s = len E).
  { rewrite Hrows, read_last in Hlast. inversion Hlast. congruence. }
  assert (Hs : 0 <= s <= len E).
  { apply Forall_cons_iff in Hall. tauto. }
  assert (HE : firstn (Z.to_nat s) E ++ concat (cut E (s :: rest)) = E).
  { rewrite Hcat, Hlast'. unfold slice.
    rewrite (firstn_all2 (n := Z.to_nat (len E - s))).
    - apply firstn_skipn.
    - rewrite length_skipn. unfold len. lia. }
  assert (HR : Rep M (firstn (Z.to_nat s) E) (cut E (s :: rest))).
  { constructor.
    - now rewrite HE.
    - now rewrite HE.
    - rewrite Hrp. etransitivity; [symmetry; exact Hoff |].
      f_equal. unfold len in *. rewrite length_firstn. lia.
    - unfold len. rewrite cut_length. unfold len in Hrows. lia. }
  exists (firstn (Z.to_nat s) E), (cut E (s :: rest)).
  assert (HI1 : I1 M) by (rewrite <- Hrp in *; exact H1).
  split; [exact HR | split].
  - apply Forall_forall. intros rw Hin. apply in_split in Hin.
    destruct Hin as (b & a & Hsplit). rewrite Hsplit in HR.
    eapply Rep_rowOk; eauto.
  - apply Forall_forall. intros e Hin. apply In_nth_error in Hin.
    destruct Hin as [k Hk].
    apply (H2 (Z.of_nat k)). rewrite <- Hsnd, <- HE at 1.
    rewrite read_nat, map_app.
    rewrite nth_error_app1 by (rewrite length_map; apply nth_error_Some; congruence).
    now rewrite nth_error_map, Hk.
Qed.

(** ** The accessor and the mutator on a matrix of the data model *)

Lemma nth_app_other {T : Type} (b a : list T) (x y d : T) (n : nat) :
  n <> length b -> nth n (b ++ x :: a) d = nth n (b ++ y :: a) d.
Proof.
  intros Hn. destruct (Nat.lt_ge_cases n (length b)).
  - now rewrite !app_nth1.
  - rewrite !app_nth2 by lia.
    destruct (n - length b)%nat eqn:E; [lia | reflexivity].
Qed.

Lemma getElement_Rep_nth M pre rws r c :
  Rep M pre rws -> 0 <= r < rows M -> 0 <= c < cols M ->
  getElement M r c = Ok (lookupRow c (nth (Z.to_nat r) rws [])).
Proof.
  intros HR Hr Hc. pose proof HR as [_ _ _ Hrows].
  destruct (split_rows rws r) as (b & rw & a & -> & Hb); [lia |]. subst r.
  rewrite (getElement_Rep _ _ _ _ _ _ HR Hc).
  unfold len. rewrite Nat2Z.id, nth_middle. reflexivity.
Qed.

(** [getElement] returns on every cell of a matrix of the data model. *)
Lemma getElement_total M r c :
  Matrix_ok M -> 0 <= r < rows M -> 0 <= c < cols M ->
  exists v, getElement M r c = Ok v.
Proof.
  intros Hok Hr Hc. destruct (Matrix_ok_Rep M Hok) as (pre & rws & HR & _).
  rewrite (getElement_Rep_nth _ _ _ _ _ HR Hr Hc). eauto.
Qed.

Lemma getElement_cell M r c :
  Matrix_ok M -> 0 <= r < rows M -> 0 <= c < cols M ->
  getElement M r c = Ok (cell M r c).
Proof.
  intros Hok Hr Hc. unfold cell.
  destruct (getElement_total M r c Hok Hr Hc) as [v ->]. reflexivity.
Qed.

(** What one call of [setElement] establishes. *)
Lemma setElement_spec M row col value :
  Matrix_ok M -> 0 <= row < rows M -> 0 <= col < cols M ->
  exists M',
    setElement M row col value = Ok M' /\
    Matrix_ok M' /\ rows M' = rows M /\ cols M' = cols M /\
    getElement M' row col = Ok value /\
    (forall r c, 0 <= r < rows M -> 0 <= c < cols M -> (r, c) <> (row, col) ->
       getElement M' r c = getElement M r c).
Proof.
  intros Hok Hr Hc. destruct (Matrix_ok_Rep M Hok) as (pre & rws & HR & Hrows & Hpre).
  destruct Hok as ((Hrpos & Hcpos & _) & _).
  pose proof HR as [_ _ _ Hlen].
  destruct (split_rows rws row) as (b & rw & a & -> & Hb); [lia |]. subst row.
  destruct (setElement_Rep M pre b rw a col value HR Hc) as (M' & Hset & HR' & Hr' & Hc').
  pose proof Hrows as Hrows0.
  apply Forall_app in Hrows. destruct Hrows as [Hfb Hrows].
  apply Forall_cons_iff in Hrows. destruct Hrows as [Hrw Hfa].
  exists M'. split; [exact Hset |]. split; [| split; [exact Hr' | split; [exact Hc' | split]]].
  - apply (Rep_Matrix_ok M' pre _ HR'); rewrite ?Hr', ?Hc'; auto.
    apply Forall_app. split; [exact Hfb |]. constructor; [| exact Hfa].
    now apply rowOk_updRow.
  - rewrite (getElement_Rep _ _ _ _ _ _ HR') by (rewrite Hc'; exact Hc).
    f_equal. apply lookupRow_updRow_same. apply Hrw.
  - intros r c Hr0 Hc0 Hne.
    rewrite (getElement_Rep_nth _ _ _ _ _ HR') by (rewrite ?Hr', ?Hc'; assumption).
    rewrite (getElement_Rep_nth _ _ _ _ _ HR) by assumption.
    f_equal. destruct (Z.eq_dec r (len b)) as [-> | Hrne].
    + unfold len. rewrite Nat2Z.id, !nth_middle.
      apply lookupRow_updRow_other. congruence.
    + f_equal. apply nth_app_other. unfold len in Hrne. lia.
Qed.

Lemma offsets_repeat_nil (n : nat) (o : Z) :
  offsets o (repeat [] n) = repeat o (S n).
Proof.
  induction n as [| n IH]; simpl; [reflexivity |].
  rewrite len_nil, Z.add_0_r. f_equal. exact IH.
Qed.

Lemma emptyMatrix_Rep (R C : Z) :
  0 < R -> Rep (emptyMatrix R C) [] (repeat [] (Z.to_nat R)).
Proof.
  intros HR. constructor; simpl.
  - induction (Z.to_nat R); simpl; auto.
  - induction (Z.to_nat R); simpl; auto.
  - destruct (Z.gtb_spec R 0); [| lia].
    rewrite offsets_repeat_nil. change (len (@nil (Z * Z))) with 0. f_equal. lia.
  - rewrite len_repeat. lia.
Qed.

(** The empty matrix of positive dimensions is in the data model. *)
Lemma emptyMatrix_ok (R C : Z) : 0 < R -> 0 < C -> Matrix_ok (emptyMatrix R C).
Proof.
  intros HR HC. apply (Rep_Matrix_ok _ [] _ (emptyMatrix_Rep R C HR)); simpl; auto.
  apply Forall_forall. intros rw Hin. apply repeat_spec in Hin. subst rw.
  split; constructor.
Qed.

(** A sequence of calls of [setElement] within the bounds: it ends, the
    invariants hold and every cell holds what was written last. *)
Lemma populate_spec (calls : list entry) : forall M,
  Matrix_ok M -> Forall (inBounds (rows M) (cols M)) calls ->
  exists M',
    populate M calls = Ok M' /\
    Matrix_ok M' /\ rows M' = rows M /\ cols M' = cols M /\
    forall r c, 0 <= r < rows M -> 0 <= c < cols M ->
      getElement M' r c = Ok (lastWrite calls r c (cell M r c)).
Proof.
  induction calls as [| [[r0 c0] v0] calls IH]; intros M Hok Hall.
  - exists M. simpl.
    split; [reflexivity |]. split; [exact Hok |].
    split; [reflexivity |]. split; [reflexivity |].
    intros r c Hr Hc. now apply getElement_cell.
  - apply Forall_cons_iff in Hall. destruct Hall as [[Hr0 Hc0] Hall].
    destruct (setElement_spec M r0 c0 v0 Hok Hr0 Hc0)
      as (M1 & Hset & Hok1 & Hr1 & Hc1 & Hsame & Hother).
    destruct (IH M1 Hok1) as (M' & Hpop & Hok' & Hr' & Hc' & Hget).
    { now rewrite Hr1, Hc1. }
    exists M'. simpl populate. rewrite Hset. cbn [bind].
    split; [exact Hpop |]. split; [exact Hok' |].
    split; [congruence |]. split; [congruence |].
    intros r c Hr Hc. rewrite Hget by (rewrite ?Hr1, ?Hc1; assumption).
    simpl lastWrite. do 2 f_equal. unfold cell at 1.
    destruct (Z.eqb_spec r0 r) as [-> | Hne]; simpl.
    + destruct (Z.eqb_spec c0 c) as [-> | Hne]; simpl.
      * now rewrite Hsame.
      * rewrite Hother by (auto; congruence). reflexivity.
    + rewrite Hother by (auto; congruence). reflexivity.
Qed.

(** ** The row merge of [add] and [subtract] *)

Lemma bind_Ok {A : Type} (m : result A) : bind m Ok = m.
Proof. now destruct m. Qed.

Lemma bind_assoc {A B C : Type} (m : result A) (f : A -> result B) (g : B -> result C) :
  bind (bind m f) g = bind m (fun x => bind (f x) g).
Proof. now destruct m. Qed.

Lemma populate_app (l1 l2 : list entry) : forall M,
  populate M (l1 ++ l2) = bind (populate M l1) (fun M' => populate M' l2).
Proof.
  induction l1 as [| [[r c] v] l1 IH]; intros M; simpl; [reflexivity |].
  destruct (setElement M r c v); simpl; auto.
Qed.

Lemma takeWhile_all {T : Type} (p : T -> bool) (l : list T) :
  Forall (fun x => p x = true) l -> takeWhile p l = l /\ dropWhile p l = [].
Proof.
  induction 1 as [| x l Hx _ [IH1 IH2]]; simpl; [auto |].
  rewrite Hx. split; congruence.
Qed.

(** Writing increasing columns with non-zero values into a row appends them. *)
Lemma fold_updRow_sorted (ops : row) : forall acc : row,
  StronglySorted Z.lt (map fst (acc ++ ops)) ->
  Forall (fun e => snd e <> 0) ops ->
  fold_left (fun rw e => updRow (fst e) (snd e) rw) ops acc = acc ++ ops.
Proof.
  induction ops as [| [c v] ops IH]; intros acc Hs Hnz; simpl.
  - now rewrite app_nil_r.
  - apply Forall_cons_iff in Hnz. destruct Hnz as [Hv Hnz]. simpl in Hv.
    assert (Hacc : Forall (fun e => (fst e <? c) = true) acc).
    { rewrite map_app in Hs. apply SS_app in Hs. destruct Hs as (_ & _ & Hs).
      apply Forall_forall. intros e He. apply Z.ltb_lt.
      apply Hs; [apply in_map, He | simpl; auto]. }
    destruct (takeWhile_all _ _ Hacc) as [Ht Hd].
    assert (Hu : updRow c v acc = acc ++ [(c, v)]).
    { unfold updRow. rewrite Ht, Hd.
      destruct (Z.eqb_spec v 0); [contradiction | reflexivity]. }
    rewrite Hu. rewrite IH; [now rewrite <- app_assoc | | exact Hnz].
    now rewrite <- app_assoc.
Qed.

Section MergeOps.
Variable onRight : Z -> Z.
Variable onBoth : Z -> Z -> Z.

Hypothesis onBoth_zero_r : forall a, onBoth a 0 = a.
Hypothesis onRight_onBoth : forall v, onRight v = onBoth 0 v.
Hypothesis onRight_nonzero : forall v, v <> 0 -> onRight v <> 0.

Lemma lookupRow_onRight c (rb : row) :
  lookupRow c (map (fun e => (fst e, onRight (snd e))) rb) = onBoth 0 (lookupRow c rb).
Proof.
  induction rb as [| [c2 v2] rb IH]; simpl.
  - now rewrite onBoth_zero_r.
  - destruct (Z.eqb_spec c2 c); [apply onRight_onBoth | exact IH].
Qed.

Lemma SS_above (c : Z) (l : row) (c0 v0 : Z) :
  StronglySorted Z.lt (map fst ((c0, v0) :: l)) -> c <= c0 ->
  Forall (fun e => c < fst e) l.
Proof.
  intros Hs Hc. simpl in Hs. apply StronglySorted_inv in Hs. destruct Hs as [_ Hs].
  rewrite Forall_forall in *. intros e He.
  specialize (Hs (fst e) (in_map fst _ _ He)). lia.
Qed.

Lemma mergeOps_keys (fuel : nat) : forall ra rb k,
  In k (map fst (mergeOps onRight onBoth fuel ra rb)) -> In k (map fst ra) \/ In k (map fst rb).
Proof.
  induction fuel as [| f IH]; intros ra rb k; simpl; [tauto |].
  destruct ra as [| [c1 v1] ra'].
  - rewrite map_map. simpl. auto.
  - destruct rb as [| [c2 v2] rb']; [auto |].
    destruct (c1 <? c2).
    + simpl. intros [H | H]; [auto |]. apply IH in H. simpl in H. tauto.
    + destruct (c2 <? c1).
      * simpl. intros [H | H]; [auto |]. apply IH in H. simpl in H. tauto.
      * rewrite map_app. intros H. apply in_app_or in H. destruct H as [H | H].
        -- destruct (negb (onBoth v1 v2 =? 0)); simpl in H; [| tauto].
           destruct H; [simpl; auto | tauto].
        -- apply IH in H. simpl. tauto.
Qed.

Lemma mergeOps_sorted (fuel : nat) : forall ra rb,
  StronglySorted Z.lt (map fst ra) -> StronglySorted Z.lt (map fst rb) ->
  StronglySorted Z.lt (map fst (mergeOps onRight onBoth fuel ra rb)).
Proof.
  induction fuel as [| f IH]; intros ra rb Ha Hb; simpl; [constructor |].
  destruct ra as [| [c1 v1] ra'].
  - rewrite map_map. exact Hb.
  - destruct rb as [| [c2 v2] rb']; [exact Ha |].
    pose proof Ha as Ha'. pose proof Hb as Hb'.
    simpl in Ha', Hb'. apply StronglySorted_inv in Ha', Hb'.
    destruct Ha' as [Ha1 Ha2]. destruct Hb' as [Hb1 Hb2].
    rewrite Forall_forall in Ha2, Hb2.
    destruct (Z.ltb_spec c1 c2).
    + simpl. constructor; [now apply IH |].
      apply Forall_forall. intros k Hk. apply mergeOps_keys in Hk.
      destruct Hk as [Hk | [Hk | Hk]]; [auto | simpl in Hk; lia |].
      specialize (Hb2 k Hk). lia.
    + destruct (Z.ltb_spec c2 c1).
      * simpl. constructor; [now apply IH |].
        apply Forall_forall. intros k Hk. apply mergeOps_keys in Hk.
        destruct Hk as [[Hk | Hk] | Hk]; [simpl in Hk; lia | | auto].
        specialize (Ha2 k Hk). lia.
      * assert (c1 = c2) by lia. subst c2.
        assert (Hrest : Forall (Z.lt c1) (map fst (mergeOps onRight onBoth f ra' rb'))).
        { apply Forall_forall. intros k Hk. apply mergeOps_keys in Hk.
          destruct Hk; auto. }
        destruct (negb (onBoth v1 v2 =? 0)); simpl; [| now apply IH].
        constructor; [now apply IH | exact Hrest].
Qed.

Lemma mergeOps_nonzero (fuel : nat) : forall ra rb,
  Forall (fun e => snd e <> 0) ra -> Forall (fun e => snd e <> 0) rb ->
  Forall (fun e => snd e <> 0) (mergeOps onRight onBoth fuel ra rb).
Proof.
  induction fuel as [| f IH]; intros ra rb Ha Hb; simpl; [constructor |].
  destruct ra as [| [c1 v1] ra'].
  - apply Forall_forall. intros e He. apply in_map_iff in He.
    destruct He as (e' & <- & He'). simpl. apply onRight_nonzero.
    rewrite Forall_forall in Hb. now apply Hb.
  - destruct rb as [| [c2 v2] rb']; [exact Ha |].
    pose proof Ha as Ha'. pose proof Hb as Hb'.
    apply Forall_cons_iff in Ha', Hb'.
    destruct Ha' as [Ha1 Ha2]. destruct Hb' as [Hb1 Hb2].
    destruct (c1 <? c2); [constructor; auto |].
    destruct (c2 <? c1); [constructor; simpl; auto |].
    apply Forall_app. split; [| auto].
    destruct (Z.eqb_spec (onBoth v1 v2) 0); simpl; constructor; auto.
Qed.

Lemma mergeOps_lookup c (fuel : nat) : forall ra rb,
  (length ra + length rb <= fuel)%nat ->
  StronglySorted Z.lt (map fst ra) -> StronglySorted Z.lt (map fst rb) ->
  lookupRow c (mergeOps onRight onBoth fuel ra rb) = onBoth (lookupRow c ra) (lookupRow c rb).
Proof.
  induction fuel as [| f IH]; intros ra rb Hfuel Ha Hb.
  - destruct ra; [| simpl in Hfuel; lia]. destruct rb; [| simpl in Hfuel; lia].
    simpl. now rewrite onBoth_zero_r.
  - cbn [mergeOps]. destruct ra as [| [c1 v1] ra'].
    + apply lookupRow_onRight.
    + destruct rb as [| [c2 v2] rb']; [now rewrite onBoth_zero_r |].
      pose proof Ha as Ha'. pose proof Hb as Hb'.
      simpl in Ha', Hb'. apply StronglySorted_inv in Ha', Hb'.
      destruct Ha' as [Ha1 _]. destruct Hb' as [Hb1 _].
      simpl in Hfuel.
      assert (Ha0 : forall k, k <= c1 -> lookupRow k ra' = 0).
      { intros k Hk. apply lookupRow_above. apply (SS_above k ra' c1 v1 Ha Hk). }
      assert (Hb0 : forall k, k <= c2 -> lookupRow k rb' = 0).
      { intros k Hk. apply lookupRow_above. apply (SS_above k rb' c2 v2 Hb Hk). }
      destruct (Z.ltb_spec c1 c2).
      * cbn [lookupRow].
        destruct (Z.eqb_spec c1 c) as [-> | Hne].
        -- destruct (Z.eqb_spec c2 c); [lia |].
           rewrite Hb0 by lia. now rewrite onBoth_zero_r.
        -- rewrite IH by (auto; simpl; lia). reflexivity.
      * destruct (Z.ltb_spec c2 c1).
        -- cbn [lookupRow].
           destruct (Z.eqb_spec c2 c) as [-> | Hne].
           ++ destruct (Z.eqb_spec c1 c); [lia |].
              rewrite Ha0 by lia. apply onRight_onBoth.
           ++ rewrite IH by (auto; simpl; lia). reflexivity.
        -- assert (c1 = c2) by lia. subst c2.
           assert (Hrec : lookupRow c (mergeOps onRight onBoth f ra' rb')
                          = onBoth (lookupRow c ra') (lookupRow c rb'))
             by (apply IH; auto; lia).
           cbn [lookupRow].
           destruct (Z.eqb_spec c1 c) as [-> | Hne].
           ++ assert (Hzero : lookupRow c (mergeOps onRight onBoth f ra' rb') = 0).
              { rewrite Hrec, Ha0, Hb0 by lia. apply onBoth_zero_r. }
              destruct (Z.eqb_spec (onBoth v1 v2) 0) as [Hz | Hnz]; simpl.
              ** now rewrite Hzero, Hz.
              ** now rewrite Z.eqb_refl.
           ++ destruct (negb (onBoth v1 v2 =? 0)); simpl.
              ** destruct (Z.eqb_spec c1 c); [congruence | exact Hrec].
              ** exact Hrec.
Qed.
End MergeOps.

(** *** The loops of the merge on stored rows *)

Lemma drainLoop_row (f : Z -> Z) (X : SparseMatrix) (i : Z) (XX YY : row) (todo : row) :
  forall (done : row) (R : SparseMatrix),
    col_indices X = map fst (XX ++ done ++ todo ++ YY) ->
    values X = map snd (XX ++ done ++ todo ++ YY) ->
    drainLoop f X i (length todo) (len (XX ++ done)) R
    = populate R (map (rowCall i) (map (fun e => (fst e, f (snd e))) todo)).
Proof.
  induction todo as [| [c v] todo IH]; intros done R Hci Hvs; [reflexivity |].
  cbn [drainLoop length map populate rowCall fst snd].
  assert (HE : XX ++ done ++ ((c, v) :: todo) ++ YY = (XX ++ done) ++ (c, v) :: todo ++ YY)
    by now rewrite <- app_assoc.
  assert (Hrc : read (col_indices X) (len (XX ++ done)) = Ok c)
    by (rewrite Hci, HE; apply (read_map_middle fst)).
  assert (Hrv : read (values X) (len (XX ++ done)) = Ok v)
    by (rewrite Hvs, HE; apply (read_map_middle snd)).
  rewrite Hrc, Hrv. cbn [bind].
  destruct (setElement R i c (f v)) as [R' |]; cbn [bind]; [| reflexivity].
  replace (len (XX ++ done) + 1) with (len (XX ++ done ++ [(c, v)]))
    by (rewrite !len_app, len_cons, len_nil; lia).
  apply IH.
  - rewrite Hci. now rewrite <- !app_assoc.
  - rewrite Hvs. now rewrite <- !app_assoc.
Qed.

Section MergeLoop.
Variable onRight : Z -> Z.
Variable onBoth : Z -> Z -> Z.
Variables A B : SparseMatrix.
Variable i : Z.
Variables XA YA XB YB : row.

Lemma mergeLoop_row (fuel : nat) : forall (ra rb doneA doneB : row) (R : SparseMatrix),
  (length ra + length rb <= fuel)%nat ->
  col_indices A = map fst (XA ++ doneA ++ ra ++ YA) ->
  values A = map snd (XA ++ doneA ++ ra ++ YA) ->
  col_indices B = map fst (XB ++ doneB ++ rb ++ YB) ->
  values B = map snd (XB ++ doneB ++ rb ++ YB) ->
  forall e1 e2,
    e1 = len (XA ++ doneA) + len ra ->
    e2 = len (XB ++ doneB) + len rb ->
    bind (mergeLoop onRight onBoth A B i e1 e2 fuel (len (XA ++ doneA)) (len (XB ++ doneB)) R)
      (fun x => let '(p1, p2, R1) := x in
         bind (drainLoop (fun v => v) A i (Z.to_nat (e1 - p1)) p1 R1)
           (fun R2 => drainLoop onRight B i (Z.to_nat (e2 - p2)) p2 R2))
    = populate R (map (rowCall i) (mergeOps onRight onBoth fuel ra rb)).
Proof.
  induction fuel as [| f IH]; intros ra rb doneA doneB R Hfuel HAc HAv HBc HBv e1 e2 He1 He2.
  - destruct ra; [| simpl in Hfuel; lia]. destruct rb; [| simpl in Hfuel; lia].
    subst e1 e2. cbn [mergeLoop bind mergeOps map populate].
    rewrite len_nil, !Z.add_0_r, !Z.sub_diag. reflexivity.
  - cbn [mergeLoop mergeOps].
    destruct ra as [| [c1 v1] ra'].
    { (* the left row is exhausted *)
      subst e1. rewrite len_nil, Z.add_0_r, Z.ltb_irrefl. cbn [andb bind].
      rewrite Z.sub_diag. cbn [Z.to_nat drainLoop bind].
      subst e2. replace (Z.to_nat (len (XB ++ doneB) + len rb - len (XB ++ doneB)))
        with (length rb) by (unfold len; lia).
      exact (drainLoop_row onRight B i XB YB rb doneB R HBc HBv). }
    destruct rb as [| [c2 v2] rb'].
    { (* the right row is exhausted *)
      subst e2. rewrite len_nil, Z.add_0_r, Z.ltb_irrefl, andb_false_r. cbn [bind].
      rewrite Z.sub_diag. cbn [Z.to_nat drainLoop].
      subst e1. replace (Z.to_nat (len (XA ++ doneA) + len ((c1, v1) :: ra') - len (XA ++ doneA)))
        with (length ((c1, v1) :: ra')) by (unfold len; lia).
      rewrite (drainLoop_row (fun v => v) A i XA YA _ doneA R HAc HAv).
      rewrite bind_Ok. do 2 f_equal.
      rewrite <- (map_id ((c1, v1) :: ra')) at 2. apply map_ext. now intros []. }
    assert (HEA : XA ++ doneA ++ ((c1, v1) :: ra') ++ YA
                  = (XA ++ doneA) ++ (c1, v1) :: ra' ++ YA) by now rewrite <- app_assoc.
    assert (HEB : XB ++ doneB ++ ((c2, v2) :: rb') ++ YB
                  = (XB ++ doneB) ++ (c2, v2) :: rb' ++ YB) by now rewrite <- app_assoc.
    assert (Hr1 : read (col_indices A) (len (XA ++ doneA)) = Ok c1)
      by (rewrite HAc, HEA; apply (read_map_middle fst)).
    assert (Hr2 : read (col_indices B) (len (XB ++ doneB)) = Ok c2)
      by (rewrite HBc, HEB; apply (read_map_middle fst)).
    assert (Hv1 : read (values A) (len (XA ++ doneA)) = Ok v1)
      by (rewrite HAv, HEA; apply (read_map_middle snd)).
    assert (Hv2 : read (values B) (len (XB ++ doneB)) = Ok v2)
      by (rewrite HBv, HEB; apply (read_map_middle snd)).
    assert (Hlt1 : (len (XA ++ doneA) <? e1) = true)
      by (apply Z.ltb_lt; subst e1; rewrite len_cons; pose proof (len_nonneg ra'); lia).
    assert (Hlt2 : (len (XB ++ doneB) <? e2) = true)
      by (apply Z.ltb_lt; subst e2; rewrite len_cons; pose proof (len_nonneg rb'); lia).
    rewrite Hlt1, Hlt2, Hr1, Hr2. cbn [andb bind].
    assert (HnextA : len (XA ++ doneA) + 1 = len (XA ++ doneA ++ [(c1, v1)]))
      by (rewrite !len_app, len_cons, len_nil; lia).
    assert (HnextB : len (XB ++ doneB) + 1 = len (XB ++ doneB ++ [(c2, v2)]))
      by (rewrite !len_app, len_cons, len_nil; lia).
    assert (HAc' : col_indices A = map fst (XA ++ (doneA ++ [(c1, v1)]) ++ ra' ++ YA))
      by (rewrite HAc; now rewrite <- !app_assoc).
    assert (HAv' : values A = map snd (XA ++ (doneA ++ [(c1, v1)]) ++ ra' ++ YA))
      by (rewrite HAv; now rewrite <- !app_assoc).
    assert (HBc' : col_indices B = map fst (XB ++ (doneB ++ [(c2, v2)]) ++ rb' ++ YB))
      by (rewrite HBc; now rewrite <- !app_assoc).
    assert (HBv' : values B = map snd (XB ++ (doneB ++ [(c2, v2)]) ++ rb' ++ YB))
      by (rewrite HBv; now rewrite <- !app_assoc).
    assert (He1' : e1 = len (XA ++ doneA ++ [(c1, v1)]) + len ra')
      by (subst e1; rewrite <- HnextA, len_cons; lia).
    assert (He2' : e2 = len (XB ++ doneB ++ [(c2, v2)]) + len rb')
      by (subst e2; rewrite <- HnextB, len_cons; lia).
    simpl in Hfuel.
    destruct (c1 <? c2).
    + rewrite Hv1. cbn [bind map populate rowCall fst snd].
      rewrite bind_assoc.
      destruct (setElement R i c1 v1) as [R' |]; cbn [bind]; [| reflexivity].
      rewrite HnextA. apply IH; auto. simpl. lia.
    + destruct (c2 <? c1).
      * rewrite Hv2. cbn [bind map populate rowCall fst snd].
        rewrite bind_assoc.
        destruct (setElement R i c2 (onRight v2)) as [R' |]; cbn [bind]; [| reflexivity].
        rewrite HnextB. apply IH; auto. simpl. lia.
      * rewrite Hv1, Hv2. cbn [bind]. rewrite bind_assoc, map_app, populate_app.
        destruct (negb (onBoth v1 v2 =? 0)).
        -- cbn [map populate rowCall fst snd]. rewrite bind_assoc.
           destruct (setElement R i c1 (onBoth v1 v2)) as [R' |]; cbn [bind]; [| reflexivity].
           rewrite HnextA, HnextB. apply IH; auto. lia.
        -- cbn [map populate bind].
           rewrite HnextA, HnextB. apply IH; auto. lia.
Qed.
End MergeLoop.

Lemma mergeRow_populate onRight onBoth A B preA bA ra aA preB bB rb aB R :
  Rep A preA (bA ++ ra :: aA) -> Rep B preB (bB ++ rb :: aB) -> len bA = len bB ->
  mergeRow onRight onBoth A B (len bA) R
  = populate R (map (rowCall (len bA)) (mergedRow onRight onBoth ra rb)).
Proof.
  intros HA HB Hlen. unfold mergeRow.
  pose proof (rowStart_Rep _ _ _ _ _ HB) as HsB.
  pose proof (rowEnd_Rep _ _ _ _ _ HB) as HeB.
  rewrite <- Hlen in HsB, HeB.
  rewrite (rowStart_Rep _ _ _ _ _ HA), (rowEnd_Rep _ _ _ _ _ HA). cbn [bind].
  rewrite HsB, HeB. cbn [bind].
  destruct (Rep_entries _ _ _ _ _ HA) as [HAc HAv].
  destruct (Rep_entries _ _ _ _ _ HB) as [HBc HBv].
  replace (Z.to_nat (len preA + len (concat bA) + len ra - (len preA + len (concat bA)))
           + Z.to_nat (len preB + len (concat bB) + len rb - (len preB + len (concat bB))))%nat
    with (length ra + length rb)%nat by (unfold len; lia).
  rewrite <- !len_app.
  pose proof (mergeLoop_row onRight onBoth A B (len bA)
                (preA ++ concat bA) (concat aA) (preB ++ concat bB) (concat aB)
                (length ra + length rb) ra rb [] [] R (Nat.le_refl _)) as H.
  rewrite !app_nil_r in H. apply H; auto; apply len_app.
Qed.

(** Calls of [setElement] on one row fold [updRow] over the stored row. *)
Lemma populate_row_Rep pre b a (ops : row) : forall R rw,
  Rep R pre (b ++ rw :: a) ->
  Forall (fun e => 0 <= fst e < cols R) ops ->
  exists R',
    populate R (map (rowCall (len b)) ops) = Ok R' /\
    Rep R' pre (b ++ fold_left (fun rw e => updRow (fst e) (snd e) rw) ops rw :: a) /\
    rows R' = rows R /\ cols R' = cols R.
Proof.
  induction ops as [| [c v] ops IH]; intros R rw HR Hall.
  - exists R. simpl. auto.
  - apply Forall_cons_iff in Hall. destruct Hall as [Hc Hall]. simpl in Hc.
    destruct (setElement_Rep R pre b rw a c v HR Hc) as (R1 & Hset & HR1 & Hr1 & Hc1).
    destruct (IH R1 (updRow c v rw) HR1) as (R' & Hpop & HR' & Hr' & Hc').
    { now rewrite Hc1. }
    exists R'. cbn [map populate rowCall fst snd fold_left].
    rewrite Hset. cbn [bind].
    split; [exact Hpop |]. split; [exact HR' |]. split; congruence.
Qed.

Section MergeRows.
Variable onRight : Z -> Z.
Variable onBoth : Z -> Z -> Z.
Hypothesis onBoth_zero_r : forall a, onBoth a 0 = a.
Hypothesis onRight_onBoth : forall v, onRight v = onBoth 0 v.
Hypothesis onRight_nonzero : forall v, v <> 0 -> onRight v <> 0.
Variables A B : SparseMatrix.
Variables preA preB : row.

Lemma mergedRow_ok ncols (ra rb : row) :
  rowOk ncols ra -> rowOk ncols rb -> rowOk ncols (mergedRow onRight onBoth ra rb).
Proof.
  intros [Hsa Hfa] [Hsb Hfb]. unfold mergedRow. split.
  - now apply mergeOps_sorted.
  - assert (Hnz : Forall (fun e => snd e <> 0)
                    (mergeOps onRight onBoth (length ra + length rb) ra rb)).
    { apply mergeOps_nonzero; auto;
        eapply Forall_impl; try eassumption; simpl; tauto. }
    rewrite Forall_forall in *. intros e He. split; [| now apply Hnz].
    destruct (mergeOps_keys onRight onBoth _ ra rb (fst e) (in_map fst _ _ He)) as [H | H];
      apply in_map_iff in H; destruct H as (e' & <- & He').
    + now apply Hfa.
    + now apply Hfb.
Qed.

Lemma mergeRows_loop (restA : list row) : forall (restB doneA doneB done : list row) R,
  length restA = length restB ->
  len doneA = len done -> len doneB = len done ->
  Rep A preA (doneA ++ restA) -> Rep B preB (doneB ++ restB) ->
  Forall (rowOk (cols R)) restA -> Forall (rowOk (cols R)) restB ->
  Rep R [] (done ++ repeat [] (length restA)) ->
  exists R',
    forRange (length restA) (len done) (mergeRow onRight onBoth A B) R = Ok R' /\
    Rep R' [] (done ++ mergedRows onRight onBoth restA restB) /\
    rows R' = rows R /\ cols R' = cols R.
Proof.
  induction restA as [| ra restA IH];
    intros restB doneA doneB done R Hlen HdA HdB HA HB HokA HokB HR.
  - exists R. destruct restB; [| discriminate]. simpl. auto.
  - destruct restB as [| rb restB]; [discriminate |].
    apply Forall_cons_iff in HokA, HokB.
    destruct HokA as [Hra HokA]. destruct HokB as [Hrb HokB].
    cbn [length forRange repeat] in *.
    assert (Hmr : mergeRow onRight onBoth A B (len done) R
                  = populate R (map (rowCall (len done)) (mergedRow onRight onBoth ra rb))).
    { rewrite <- HdA. eapply mergeRow_populate; eauto. congruence. }
    rewrite Hmr.
    pose proof (mergedRow_ok (cols R) ra rb Hra Hrb) as [Hms Hmf].
    destruct (populate_row_Rep [] done (repeat [] (length restA))
                (mergedRow onRight onBoth ra rb) R [] HR) as (R1 & Hpop & HR1 & Hr1 & Hc1).
    { eapply Forall_impl; [| exact Hmf]. simpl. tauto. }
    rewrite fold_updRow_sorted in HR1; cycle 1.
    { exact Hms. }
    { eapply Forall_impl; [| exact Hmf]. simpl. tauto. }
    cbn [app] in HR1.
    rewrite Hpop. cbn [bind].
    destruct (IH restB (doneA ++ [ra]) (doneB ++ [rb])
                (done ++ [mergedRow onRight onBoth ra rb]) R1)
      as (R' & Hloop & HR' & Hr' & Hc').
    + simpl in Hlen. lia.
    + rewrite !len_app, !len_cons, !len_nil. lia.
    + rewrite !len_app, !len_cons, !len_nil. lia.
    + now rewrite <- app_assoc.
    + now rewrite <- app_assoc.
    + now rewrite Hc1.
    + now rewrite Hc1.
    + now rewrite <- app_assoc.
    + exists R'. replace (len done + 1) with (len (done ++ [mergedRow onRight onBoth ra rb]))
        by (rewrite len_app, len_cons, len_nil; lia).
      split; [exact Hloop |]. split; [| split; congruence].
      unfold mergedRows. cbn [combine map fst snd].
      rewrite <- app_assoc in HR'. exact HR'.
Qed.

(** The merge of two matrices of the same dimensions: it ends with a
    matrix that stores the merged rows. *)
Lemma mergeRows_spec rwsA rwsB :
  Rep A preA rwsA -> Rep B preB rwsB ->
  rows A = rows B -> 0 < rows A ->
  Forall (rowOk (cols A)) rwsA -> Forall (rowOk (cols A)) rwsB ->
  exists R,
    mergeRows onRight onBoth A B = Ok R /\
    Rep R [] (mergedRows onRight onBoth rwsA rwsB) /\
    rows R = rows A /\ cols R = cols A.
Proof.
  intros HA HB Hrows Hpos HokA HokB.
  pose proof HA as [_ _ _ HlenA]. pose proof HB as [_ _ _ HlenB].
  unfold mergeRows.
  replace (Z.to_nat (rows A)) with (length rwsA) by (unfold len in HlenA; lia).
  destruct (mergeRows_loop rwsA rwsB [] [] [] (emptyMatrix (rows A) (cols A)))
    as (R & Hloop & HR & Hr & Hc); auto.
  - unfold len in *. lia.
  - cbn [app]. replace (length rwsA) with (Z.to_nat (rows A)) by (unfold len in HlenA; lia).
    now apply emptyMatrix_Rep.
  - exists R. auto.
Qed.
End MergeRows.

(** ** Stored entries *)

Lemma storedAt_Rep M pre b rw a c :
  Rep M pre (b ++ rw :: a) ->
  (storedAt M (len b) c <-> In c (map fst rw)).
Proof.
  intros HR. destruct (Rep_entries _ _ _ _ _ HR) as [Hci _].
  pose proof (rowStart_Rep _ _ _ _ _ HR) as Hs.
  pose proof (read_rowEnd_Rep _ _ _ _ _ HR) as He.
  rewrite <- len_app in *. set (X := pre ++ concat b) in *.
  split.
  - intros (s & e & p & Hs' & He' & Hp & Hc).
    rewrite Hs in Hs'. rewrite He in He'. inversion Hs'; inversion He'; subst s e.
    rewrite Hci, map_app in Hc.
    replace p with (len (map fst X) + (p - len X)) in Hc by (rewrite len_map; lia).
    rewrite read_app_r in Hc by lia.
    rewrite map_app, read_app_l in Hc by (rewrite len_map; lia).
    eapply read_In, Hc.
  - intros Hin. apply in_map_iff in Hin. destruct Hin as (x & <- & Hx).
    apply In_nth_error in Hx. destruct Hx as [k Hk].
    assert (k < length rw)%nat by (apply nth_error_Some; congruence).
    exists (len X), (len X + len rw), (len X + Z.of_nat k).
    repeat split; auto; try (unfold len; lia).
    rewrite Hci. now apply read_map_inside.
Qed.


(** ** Addition and subtraction on matrices of the data model *)

Lemma nth_combine_map {T1 T2 U : Type} (f : T1 * T2 -> U) (la : list T1) :
  forall (lb : list T2) n ds dt du,
  (n < length la)%nat -> length la = length lb ->
  nth n (map f (combine la lb)) du = f (nth n la ds, nth n lb dt).
Proof.
  induction la as [| x la IH]; intros [| y lb] n ds dt du Hn Hlen; simpl in *; try lia.
  destruct n as [| n]; [reflexivity |]. apply IH; lia.
Qed.

Lemma Forall_combine_rowOk ncols onRight onBoth
  (H1 : forall v, v <> 0 -> onRight v <> 0) (la : list row) : forall lb,
  Forall (rowOk ncols) la -> Forall (rowOk ncols) lb ->
  Forall (rowOk ncols) (mergedRows onRight onBoth la lb).
Proof.
  unfold mergedRows.
  induction la as [| ra la IH]; intros [| rb lb] Ha Hb; simpl; try constructor.
  - apply Forall_cons_iff in Ha, Hb. apply mergedRow_ok; tauto.
  - apply Forall_cons_iff in Ha, Hb. apply IH; tauto.
Qed.

Section MergeCorrect.
Variable onRight : Z -> Z.
Variable onBoth : Z -> Z -> Z.
Hypothesis onBoth_zero_r : forall a, onBoth a 0 = a.
Hypothesis onRight_onBoth : forall v, onRight v = onBoth 0 v.
Hypothesis onRight_nonzero : forall v, v <> 0 -> onRight v <> 0.

Lemma mergeRows_correct A B :
  Matrix_ok A -> Matrix_ok B -> rows A = rows B -> cols A = cols B ->
  exists R,
    mergeRows onRight onBoth A B = Ok R /\
    Matrix_ok R /\ rows R = rows A /\ cols R = cols A /\
    forall r c, 0 <= r < rows A -> 0 <= c < cols A ->
      getElement R r c = Ok (onBoth (cell A r c) (cell B r c)).
Proof.
  intros HokA HokB Hrows Hcols.
  destruct (Matrix_ok_Rep A HokA) as (preA & rwsA & HA & HrA & _).
  destruct (Matrix_ok_Rep B HokB) as (preB & rwsB & HB & HrB & _).
  pose proof HokA as ((Hrpos & Hcpos & _) & _).
  rewrite <- Hcols in HrB.
  destruct (mergeRows_spec onRight onBoth onRight_nonzero A B preA preB rwsA rwsB)
    as (R & Hrun & HR & Hr & Hc); auto.
  pose proof HA as [_ _ _ HlenA]. pose proof HB as [_ _ _ HlenB].
  exists R. split; [exact Hrun |]. split; [| split; [exact Hr | split; [exact Hc |]]].
  - apply (Rep_Matrix_ok R [] _ HR); try rewrite Hr; try rewrite Hc; auto.
    now apply Forall_combine_rowOk.
  - intros r c Hr0 Hc0.
    rewrite (getElement_Rep_nth _ _ _ _ _ HR) by (rewrite ?Hr, ?Hc; assumption).
    unfold cell.
    rewrite (getElement_Rep_nth _ _ _ _ _ HA) by assumption.
    rewrite (getElement_Rep_nth _ _ _ _ _ HB) by (rewrite <- ?Hrows, <- ?Hcols; assumption).
    f_equal. unfold mergedRows.
    rewrite (nth_combine_map (fun p : row * row => mergedRow onRight onBoth (fst p) (snd p))
               rwsA rwsB (Z.to_nat r) [] [] [])
      by (unfold len in *; lia).
    cbn [fst snd]. unfold mergedRow.
    assert (Hin : forall (rws : list row), Forall (rowOk (cols A)) rws ->
              StronglySorted Z.lt (map fst (nth (Z.to_nat r) rws []))).
    { intros rws Hf. destruct (nth_in_or_default (Z.to_nat r) rws []) as [Hi | ->].
      - rewrite Forall_forall in Hf. apply (Hf _ Hi).
      - constructor. }
    apply mergeOps_lookup; auto.
Qed.
End MergeCorrect.

Lemma add_correct A B :
  Matrix_ok A -> Matrix_ok B -> rows A = rows B -> cols A = cols B ->
  exists R,
    add A B = Ok R /\
    Matrix_ok R /\ rows R = rows A /\ cols R = cols A /\
    forall r c, 0 <= r < rows A -> 0 <= c < cols A ->
      getElement R r c = Ok (cell A r c + cell B r c).
Proof.
  intros HokA HokB Hrows Hcols. unfold add.
  rewrite Hrows, Hcols, !Z.eqb_refl. cbn [negb orb].
  rewrite <- Hrows, <- Hcols.
  apply (mergeRows_correct (fun v => v) Z.add); auto; intros; lia.
Qed.

Lemma subtract_correct A B :
  Matrix_ok A -> Matrix_ok B -> rows A = rows B -> cols A = cols B ->
  exists R,
    subtract A B = Ok R /\
    Matrix_ok R /\ rows R = rows A /\ cols R = cols A /\
    forall r c, 0 <= r < rows A -> 0 <= c < cols A ->
      getElement R r c = Ok (cell A r c - cell B r c).
Proof.
  intros HokA HokB Hrows Hcols. unfold subtract.
  rewrite Hrows, Hcols, !Z.eqb_refl. cbn [negb orb].
  rewrite <- Hrows, <- Hcols.
  apply (mergeRows_correct Z.opp Z.sub); auto; intros; lia.
Qed.

(** ** Multiplication: the scratch row *)












(** *** The loops of [multiply] on stored rows *)



(** *** The non-zero slots of the scratch row *)












(** ** The loader *)













(** ** Numbers as text *)


















(** ** The text [saveToFile] writes *)




(** *** Reading the entries back *)







(** *** Parsing the text that was written *)







(** [trim] leaves a line alone that starts and ends with characters that
    are not white space. *)
Lemma trim_id (a z : ascii) (m : text) :
  isWhite a = false -> isWhite z = false -> trim (a :: m ++ [z]) = a :: m ++ [z].
Proof.
  intros Ha Hz. unfold trim. cbn [dropWhile]. rewrite Ha.
  cbn [rev]. rewrite rev_app_distr. cbn [rev app dropWhile]. rewrite Hz.
  change (z :: rev m ++ [a]) with (rev [z] ++ rev m ++ [a]).
  rewrite app_assoc, <- rev_app_distr.
  change (rev (m ++ [z]) ++ [a]) with (rev (a :: m ++ [z])).
  apply rev_involutive.
Qed.













(** ** The four cases of the mutator *)

Lemma key_in_sorted (col : Z) (rw : row) :
  StronglySorted Z.lt (map fst rw) ->
  (In col (map fst rw) <->
   exists v hi', dropWhile (fun e => fst e <? col) rw = (col, v) :: hi').
Proof.
  intros Hs.
  pose proof (takeWhile_dropWhile (fun e => fst e <? col) rw) as Hsplit.
  pose proof (lo_below col rw) as Hlo. cbv zeta in Hlo.
  split.
  - intros Hin. rewrite <- Hsplit, map_app in Hin. apply in_app_or in Hin.
    destruct Hin as [Hin | Hin].
    + apply in_map_iff in Hin. destruct Hin as (e & He & Hin).
      rewrite Forall_forall in Hlo. specialize (Hlo e Hin). lia.
    + destruct (dropWhile (fun e => fst e <? col) rw) as [| [c v] hi'] eqn:Hhi;
        [contradiction |].
      destruct (hi_above col rw c v hi' Hs Hhi) as [Hc Habove].
      destruct Hin as [Hin | Hin]; [simpl in Hin; subst; eauto |].
      apply in_map_iff in Hin. destruct Hin as (e & He & Hin).
      rewrite Forall_forall in Habove. specialize (Habove e Hin). lia.
  - intros (v & hi' & Hhi). rewrite <- Hsplit, Hhi, map_app.
    apply in_or_app. right. simpl. auto.
Qed.

Lemma updRow_cases (col value : Z) (rw : row) :
  StronglySorted Z.lt (map fst rw) ->
  (In col (map fst rw) -> value <> 0 ->
     map fst (updRow col value rw) = map fst rw) /\
  (In col (map fst rw) -> value = 0 ->
     len (updRow col value rw) = len rw - 1 /\ ~ In col (map fst (updRow col value rw))) /\
  (~ In col (map fst rw) -> value <> 0 ->
     len (updRow col value rw) = len rw + 1 /\ In col (map fst (updRow col value rw))) /\
  (~ In col (map fst rw) -> value = 0 -> updRow col value rw = rw).
Proof.
  intros Hs.
  pose proof (takeWhile_dropWhile (fun e => fst e <? col) rw) as Hsplit.
  pose proof (lo_below col rw) as Hlo. cbv zeta in Hlo.
  pose proof (key_in_sorted col rw Hs) as Hkey.
  unfold updRow.
  set (lo := takeWhile (fun e => fst e <? col) rw) in *.
  destruct (dropWhile (fun e => fst e <? col) rw) as [| [c v] hi'] eqn:Hhi.
  - assert (Hnot : ~ In col (map fst rw)).
    { intros Hin. apply Hkey in Hin. destruct Hin as (? & ? & ?). discriminate. }
    split; [tauto |]. split; [tauto |]. split.
    + intros _ Hv. destruct (Z.eqb_spec value 0); [contradiction |]. cbn [negb].
      split.
      * rewrite <- Hsplit, !len_app, len_cons, len_nil. lia.
      * rewrite map_app. apply in_or_app. right. simpl. auto.
    + intros _ Hv. destruct (Z.eqb_spec value 0); [reflexivity | contradiction].
  - destruct (hi_above col rw c v hi' Hs Hhi) as [Hc Habove].
    destruct (Z.eqb_spec c col) as [-> | Hne].
    + assert (Hin : In col (map fst rw)) by (apply Hkey; eauto).
      split; [| split; [| split; [tauto | tauto]]].
      * intros _ Hv. destruct (Z.eqb_spec value 0); [contradiction |].
        rewrite <- Hsplit, !map_app. reflexivity.
      * intros _ Hv. destruct (Z.eqb_spec value 0); [| contradiction]. split.
        -- rewrite <- Hsplit, !len_app, len_cons. lia.
        -- rewrite map_app. intros Hi. apply in_app_or in Hi. destruct Hi as [Hi | Hi];
             apply in_map_iff in Hi; destruct Hi as (x & Hx & Hi).
           ++ rewrite Forall_forall in Hlo. specialize (Hlo x Hi). lia.
           ++ rewrite Forall_forall in Habove. specialize (Habove x Hi). lia.
    + assert (Hnot : ~ In col (map fst rw)).
      { intros Hin. apply Hkey in Hin. destruct Hin as (? & ? & Heq).
        inversion Heq. congruence. }
      split; [tauto |]. split; [tauto |]. split.
      * intros _ Hv. destruct (Z.eqb_spec value 0); [contradiction |]. cbn [negb].
        split.
        -- rewrite <- Hsplit, !len_app, !len_cons. lia.
        -- rewrite map_app. apply in_or_app. right. simpl. auto.
      * intros _ Hv. destruct (Z.eqb_spec value 0); [reflexivity | contradiction].
Qed.

Lemma offsets_same_lengths (b a : list row) (rw rw' : row) (o : Z) :
  len rw' = len rw -> offsets o (b ++ rw' :: a) = offsets o (b ++ rw :: a).
Proof. intros H. rewrite !offsets_app. cbn [offsets]. now rewrite H. Qed.

Lemma Rep_len_values M pre rws : Rep M pre rws -> len (values M) = len pre + len (concat rws).
Proof. intros [_ Hvs _ _]. now rewrite Hvs, len_map, len_app. Qed.

Lemma len_concat_mid (b a : list row) (rw : row) :
  len (concat (b ++ rw :: a)) = len (concat b) + len rw + len (concat a).
Proof. rewrite concat_app, len_app. cbn [concat]. rewrite len_app. lia. Qed.

(** The case the mutator takes, by whether the cell is stored and whether
    the value is zero. *)
Lemma setElement_cases M row col value M' :
  Matrix_ok M -> 0 <= row < rows M -> 0 <= col < cols M ->
  setElement M row col value = Ok M' ->
  (storedAt M row col -> value <> 0 ->
     len (values M') = len (values M) /\
     col_indices M' = col_indices M /\ row_ptr M' = row_ptr M) /\
  (storedAt M row col -> value = 0 ->
     len (values M') = len (values M) - 1 /\ ~ storedAt M' row col) /\
  (~ storedAt M row col -> value <> 0 ->
     len (values M') = len (values M) + 1 /\ storedAt M' row col) /\
  (~ storedAt M row col -> value = 0 -> M' = M).
Proof.
  intros Hok Hr Hc Hset.
  destruct (Matrix_ok_Rep M Hok) as (pre & rws & HR & Hrows & _).
  pose proof HR as [_ _ _ Hlen].
  destruct (split_rows rws row) as (b & rw & a & -> & Hb); [lia |]. subst row.
  destruct (setElement_Rep M pre b rw a col value HR Hc) as (M1 & Hset1 & HR1 & Hr1 & Hc1).
  rewrite Hset in Hset1. inversion Hset1; subst M1. clear Hset1.
  apply Forall_app in Hrows. destruct Hrows as [_ Hrows].
  apply Forall_cons_iff in Hrows. destruct Hrows as [[Hs _] _].
  destruct (updRow_cases col value rw Hs) as (Hover & Hdel & Hins & Hnop).
  pose proof (storedAt_Rep _ _ _ _ _ col HR) as Hst.
  pose proof (storedAt_Rep _ _ _ _ _ col HR1) as Hst1.
  pose proof (Rep_len_values _ _ _ HR) as Hlv.
  pose proof (Rep_len_values _ _ _ HR1) as Hlv1.
  rewrite len_concat_mid in Hlv, Hlv1.
  split; [| split; [| split]].
  - intros Hstored Hv. apply Hst in Hstored. specialize (Hover Hstored Hv).
    assert (Hl : len (updRow col value rw) = len rw).
    { rewrite <- (len_map fst), Hover. apply len_map. }
    split; [lia |]. split.
    + destruct HR1 as [Hci1 _ _ _]. destruct HR as [Hci _ _ _].
      rewrite Hci1, Hci, !map_app, !concat_app, !map_app. cbn [concat].
      rewrite !map_app, Hover. reflexivity.
    + destruct HR1 as [_ _ Hrp1 _]. destruct HR as [_ _ Hrp _].
      rewrite Hrp1, Hrp. now apply offsets_same_lengths.
  - intros Hstored Hv. apply Hst in Hstored. destruct (Hdel Hstored Hv) as [Hl Hnot].
    split; [lia |]. intros Hs1. apply Hst1 in Hs1. contradiction.
  - intros Hns Hv. assert (Hnot : ~ In col (map fst rw)) by (intros Hi; apply Hns, Hst, Hi).
    destruct (Hins Hnot Hv) as [Hl Hin]. split; [lia |]. now apply Hst1.
  - intros Hns Hv. assert (Hnot : ~ In col (map fst rw)) by (intros Hi; apply Hns, Hst, Hi).
    rewrite (Hnop Hnot Hv) in HR1.
    destruct HR as [Hci Hvs Hrp _]. destruct HR1 as [Hci1 Hvs1 Hrp1 _].
    destruct M, M'. simpl in *. congruence.
Qed.

(** ** Entry lines and their errors *)










(** ** Concrete matrices *)

Lemma exampleA_ok : Matrix_ok exampleA.
Proof.
  apply (Rep_Matrix_ok exampleA [] [[(0, 1); (1, 2)]; [(1, 3)]]);
    [constructor; reflexivity | | constructor | reflexivity | reflexivity].
  repeat constructor; simpl; lia.
Qed.

Lemma exampleB_ok : Matrix_ok exampleB.
Proof.
  apply (Rep_Matrix_ok exampleB [] [[(0, -1)]; [(0, 4); (1, -3)]]);
    [constructor; reflexivity | | constructor | reflexivity | reflexivity].
  repeat constructor; simpl; lia.
Qed.

(** * The properties of the specification *)

(** C1. For every matrix of the data model (I1-I3) and every (row, col,
    value) within the bounds, [setElement] returns and [getElement] on the
    matrix it leaves returns [value] at (row, col).  The mutator overwrites
    in place when the cell is stored and the value is not zero, deletes
    when the cell is stored and the value is zero, inserts when the cell is
    absent and the value is not zero, and changes nothing when the cell is
    absent and the value is zero. *)
Theorem C1_set_then_get (M : SparseMatrix) (row col value : Z) :
  Matrix_ok M -> 0 <= row < rows M -> 0 <= col < cols M ->
  exists M',
    setElement M row col value = Ok M' /\
    getElement M' row col = Ok value /\
    (storedAt M row col -> value <> 0 ->
       len (values M') = len (values M) /\
       col_indices M' = col_indices M /\ row_ptr M' = row_ptr M) /\
    (storedAt M row col -> value = 0 ->
       len (values M') = len (values M) - 1 /\ ~ storedAt M' row col) /\
    (~ storedAt M row col -> value <> 0 ->
       len (values M') = len (values M) + 1 /\ storedAt M' row col) /\
    (~ storedAt M row col -> value = 0 -> M' = M).
Proof.
  intros Hok Hr Hc.
  destruct (setElement_spec M row col value Hok Hr Hc) as (M' & Hset & _ & _ & _ & Hget & _).
  exists M'. split; [exact Hset |]. split; [exact Hget |].
  exact (setElement_cases M row col value M' Hok Hr Hc Hset).
Qed.

Lemma C1_set_then_get_witness :
  Matrix_ok exampleA /\ 0 <= 0 < rows exampleA /\ 0 <= 1 < cols exampleA /\
  exists M',
    setElement exampleA 0 1 7 = Ok M' /\
    getElement M' 0 1 = Ok 7 /\
    (storedAt exampleA 0 1 -> 7 <> 0 ->
       len (values M') = len (values exampleA) /\
       col_indices M' = col_indices exampleA /\ row_ptr M' = row_ptr exampleA) /\
    (storedAt exampleA 0 1 -> 7 = 0 ->
       len (values M') = len (values exampleA) - 1 /\ ~ storedAt M' 0 1) /\
    (~ storedAt exampleA 0 1 -> 7 <> 0 ->
       len (values M') = len (values exampleA) + 1 /\ storedAt M' 0 1) /\
    (~ storedAt exampleA 0 1 -> 7 = 0 -> M' = exampleA).
Proof.
  split; [exact exampleA_ok |]. split; [simpl; lia |]. split; [simpl; lia |].
  apply (C1_set_then_get exampleA 0 1 7); [exact exampleA_ok | simpl; lia | simpl; lia].
Defined.

(** C2. For every matrix created empty with positive dimensions and every
    sequence of calls of [setElement] within the bounds, all the calls
    return and the matrix they leave satisfies I1, I2 and I3. *)
Theorem C2_invariants_after_sets (R C : Z) (calls : list entry) :
  0 < R -> 0 < C -> Forall (inBounds R C) calls ->
  exists M,
    populate (emptyMatrix R C) calls = Ok M /\
    rows M = R /\ cols M = C /\
    I1 M /\ I2 M /\ I3 M.
Proof.
  intros HR HC Hall.
  destruct (populate_spec calls (emptyMatrix R C) (emptyMatrix_ok R C HR HC) Hall)
    as (M & Hpop & (_ & H1 & H2 & H3) & Hr & Hc & _).
  exists M. auto 10.
Qed.

Lemma C2_invariants_after_sets_witness :
  0 < 2 /\ 0 < 3 /\
  Forall (inBounds 2 3) [(1, 2, 5); (0, 1, 4); (1, 0, -2); (0, 1, 0); (1, 2, 9)] /\
  exists M,
    populate (emptyMatrix 2 3) [(1, 2, 5); (0, 1, 4); (1, 0, -2); (0, 1, 0); (1, 2, 9)]
      = Ok M /\
    rows M = 2 /\ cols M = 3 /\ I1 M /\ I2 M /\ I3 M.
Proof.
  assert (Hall : Forall (inBounds 2 3)
                   [(1, 2, 5); (0, 1, 4); (1, 0, -2); (0, 1, 0); (1, 2, 9)])
    by (repeat constructor; simpl; lia).
  split; [lia |]. split; [lia |]. split; [exact Hall |].
  apply (C2_invariants_after_sets 2 3); [lia | lia | exact Hall].
Defined.













(** C8. The source does not reject every field that is not an integer:
    [parseInt] reads the digits a field starts with, so the lines
    [(0, 1, 3.5)] and [(0, 1, 12abc)] are accepted, with the values 3 and
    12, although the message of the check reads "All values must be
    integers".  Only a field that starts with no digit fails, with the line
    number. *)
Theorem C8_fraction_is_accepted :
  (exists M,
     parse (joinLines ["rows=2"; "cols=2"; "(0, 1, 3.5)"]%string) = Ok M /\
     getElement M 0 1 = Ok 3) /\
  (exists M,
     parse (joinLines ["rows=2"; "cols=2"; "(0, 1, 12abc)"]%string) = Ok M /\
     getElement M 0 1 = Ok 12) /\
  parse (joinLines ["rows=2"; "cols=2"; "(0, 1, abc)"]%string) = Err (NotIntegers 3) /\
  parseInt (str "3.5") = Some 3 /\ parseInt (str "12abc") = Some 12 /\
  parseInt (str "abc") = None.
Proof.
  split; [eexists; split; vm_compute; reflexivity |].
  split; [eexists; split; vm_compute; reflexivity |].
  repeat split; vm_compute; reflexivity.
Qed.




(** * Further properties of the code *)

(** ** Matrices without entries before the first row *)

Lemma Rep_nil_compact M rws : Rep M [] rws -> compact M.
Proof.
  intros [_ _ Hrp _]. unfold compact. rewrite Hrp.
  destruct (offsets_head (len (@nil (Z * Z))) rws) as [t ->]. reflexivity.
Qed.

Lemma compact_Rep M :
  Matrix_ok M -> compact M ->
  exists rws, Rep M [] rws /\ Forall (rowOk (cols M)) rws.
Proof.
  intros Hok Hc. destruct (Matrix_ok_Rep M Hok) as (pre & rws & HR & Hrows & _).
  assert (Hpre : pre = []).
  { pose proof HR as [_ _ Hrp _]. unfold compact in Hc. rewrite Hrp in Hc.
    destruct (offsets_head (len pre) rws) as [t Ht]. rewrite Ht in Hc.
    inversion Hc as [Hlen]. destruct pre; [reflexivity |].
    rewrite len_cons in Hlen. pose proof (len_nonneg pre). lia. }
  subst pre. eauto.
Qed.

Lemma Rep_inj A B pre rws :
  Rep A pre rws -> Rep B pre rws -> rows A = rows B -> cols A = cols B -> A = B.
Proof.
  intros [Hc1 Hv1 Hp1 _] [Hc2 Hv2 Hp2 _] Hr Hc.
  destruct A, B. simpl in *. congruence.
Qed.

(** Two sorted rows without zeros that agree on every column are equal. *)
Lemma row_ext (ncols : Z) (ra : row) : forall rb,
  rowOk ncols ra -> rowOk ncols rb ->
  (forall c, 0 <= c < ncols -> lookupRow c ra = lookupRow c rb) ->
  ra = rb.
Proof.
  induction ra as [| [c1 v1] ra IH]; intros rb [Hsa Hfa] [Hsb Hfb] Heq.
  - destruct rb as [| [c2 v2] rb]; [reflexivity |].
    apply Forall_cons_iff in Hfb. destruct Hfb as [[Hc2 Hv2] _]. simpl in Hc2, Hv2.
    specialize (Heq c2 Hc2). simpl in Heq. rewrite Z.eqb_refl in Heq. congruence.
  - pose proof (SS_above c1 ra c1 v1 Hsa (Z.le_refl c1)) as Ha.
    pose proof Hfa as Hfa'. apply Forall_cons_iff in Hfa'.
    destruct Hfa' as [[Hc1 Hv1] Hfa']. simpl in Hc1, Hv1.
    destruct rb as [| [c2 v2] rb].
    + specialize (Heq c1 Hc1). simpl in Heq. rewrite Z.eqb_refl in Heq. congruence.
    + pose proof (SS_above c2 rb c2 v2 Hsb (Z.le_refl c2)) as Hb.
      pose proof Hfb as Hfb'. apply Forall_cons_iff in Hfb'.
      destruct Hfb' as [[Hc2 Hv2] Hfb']. simpl in Hc2, Hv2.
      assert (Hcc : c1 = c2).
      { destruct (Z.lt_trichotomy c1 c2) as [Hlt | [He | Hgt]]; [| exact He |].
        - pose proof (Heq c1 Hc1) as H1. cbn [lookupRow] in H1.
          rewrite Z.eqb_refl in H1.
          destruct (Z.eqb_spec c2 c1); [lia |].
          rewrite (lookupRow_above c1 rb) in H1; [congruence |].
          eapply Forall_impl; [| exact Hb]. intros e He. cbv beta in He. lia.
        - pose proof (Heq c2 Hc2) as H1. cbn [lookupRow] in H1.
          rewrite Z.eqb_refl in H1.
          destruct (Z.eqb_spec c1 c2); [lia |].
          rewrite (lookupRow_above c2 ra) in H1; [congruence |].
          eapply Forall_impl; [| exact Ha]. intros e He. cbv beta in He. lia. }
      subst c2.
      assert (Hvv : v1 = v2).
      { pose proof (Heq c1 Hc1) as H1. cbn [lookupRow] in H1.
        now rewrite Z.eqb_refl in H1. }
      subst v2. f_equal.
      simpl in Hsa, Hsb. apply StronglySorted_inv in Hsa, Hsb.
      apply IH; [split; tauto | split; tauto |].
      intros c Hc. destruct (Z.eq_dec c c1) as [-> | Hne].
      * now rewrite (lookupRow_above c1 ra Ha), (lookupRow_above c1 rb Hb).
      * specialize (Heq c Hc). cbn [lookupRow] in Heq.
        destruct (Z.eqb_spec c1 c); [congruence | exact Heq].
Qed.

(** A compact matrix of the data model is determined by its dimensions and
    its cells. *)
Lemma matrix_ext A B :
  Matrix_ok A -> compact A -> Matrix_ok B -> compact B ->
  rows A = rows B -> cols A = cols B ->
  (forall r c, 0 <= r < rows A -> 0 <= c < cols A -> cell A r c = cell B r c) ->
  A = B.
Proof.
  intros HokA HcA HokB HcB Hr Hc Hcells.
  destruct (compact_Rep A HokA HcA) as (rwsA & HA & HrA).
  destruct (compact_Rep B HokB HcB) as (rwsB & HB & HrB).
  pose proof HA as [_ _ _ HlenA]. pose proof HB as [_ _ _ HlenB].
  assert (Hrws : rwsA = rwsB).
  { apply (nth_ext rwsA rwsB [] []); [unfold len in *; lia |].
    intros n Hn.
    assert (Hn' : 0 <= Z.of_nat n < rows A) by (unfold len in *; lia).
    apply (row_ext (cols A)).
    - rewrite Forall_forall in HrA. apply HrA, nth_In. exact Hn.
    - rewrite Hc. rewrite Forall_forall in HrB. apply HrB, nth_In.
      unfold len in *. lia.
    - intros c Hc0. specialize (Hcells (Z.of_nat n) c Hn' Hc0). unfold cell in Hcells.
      rewrite (getElement_Rep_nth _ _ _ _ _ HA Hn' Hc0) in Hcells.
      rewrite (getElement_Rep_nth _ _ _ _ _ HB) in Hcells by lia.
      now rewrite Nat2Z.id in Hcells. }
  subst rwsB. eapply Rep_inj; eauto.
Qed.

Lemma emptyMatrix_compact (R C : Z) : compact (emptyMatrix R C).
Proof.
  unfold compact, emptyMatrix. cbn [row_ptr].
  destruct (Z.gtb_spec R 0); [| reflexivity].
  replace (Z.to_nat (R + 1)) with (S (Z.to_nat R)) by lia. reflexivity.
Qed.

Lemma emptyMatrix_cell (R C r c : Z) : cell (emptyMatrix R C) r c = 0.
Proof.
  unfold cell. destruct (Z_lt_le_dec 0 R) as [HR | HR].
  - destruct (outOfBounds (emptyMatrix R C) r c) eqn:Hb.
    + unfold getElement. now rewrite Hb.
    + unfold outOfBounds in Hb. cbn [rows cols emptyMatrix] in Hb.
      apply orb_false_iff in Hb. destruct Hb as [Hb Hb4].
      apply orb_false_iff in Hb. destruct Hb as [Hb Hb3].
      apply orb_false_iff in Hb. destruct Hb as [Hb1 Hb2].
      rewrite (getElement_Rep_nth _ _ _ _ _ (emptyMatrix_Rep R C HR)); cbn [rows cols emptyMatrix].
      * now rewrite nth_repeat.
      * apply Z.ltb_ge in Hb1. rewrite Z.geb_leb in Hb2. apply Z.leb_gt in Hb2. lia.
      * apply Z.ltb_ge in Hb3. rewrite Z.geb_leb in Hb4. apply Z.leb_gt in Hb4. lia.
  - unfold getElement, outOfBounds. cbn [rows cols emptyMatrix].
    destruct (Z.ltb_spec r 0); [reflexivity |].
    destruct (Z.geb_spec r R); [reflexivity | lia].
Qed.

(** One call of [setElement] on a compact matrix of the data model, in
    terms of cells. *)
Lemma setElement_cells M row col value :
  Matrix_ok M -> compact M -> 0 <= row < rows M -> 0 <= col < cols M ->
  exists M',
    setElement M row col value = Ok M' /\
    Matrix_ok M' /\ compact M' /\ rows M' = rows M /\ cols M' = cols M /\
    cell M' row col = value /\
    (forall r c, 0 <= r < rows M -> 0 <= c < cols M -> (r, c) <> (row, col) ->
       cell M' r c = cell M r c).
Proof.
  intros Hok Hcomp Hr Hc.
  destruct (setElement_spec M row col value Hok Hr Hc)
    as (M' & Hset & Hok' & Hr' & Hc' & Hsame & Hother).
  exists M'. split; [exact Hset |]. split; [exact Hok' |]. split.
  - destruct (compact_Rep M Hok Hcomp) as (rws & HR & _).
    pose proof HR as [_ _ _ Hlen].
    destruct (split_rows rws row) as (b & rw & a & -> & Hb); [lia |]. subst row.
    destruct (setElement_Rep M [] b rw a col value HR Hc) as (M1 & Hset1 & HR1 & _).
    rewrite Hset in Hset1. inversion Hset1; subst M1.
    eapply Rep_nil_compact, HR1.
  - split; [exact Hr' |]. split; [exact Hc' |]. split.
    + unfold cell. now rewrite Hsame.
    + intros r c Hr0 Hc0 Hne. unfold cell. now rewrite Hother.
Qed.

(** ** The operations in terms of cells *)

Lemma mergeRows_compact (onRight : Z -> Z) (onBoth : Z -> Z -> Z) A B R :
  (forall v, v <> 0 -> onRight v <> 0) ->
  Matrix_ok A -> Matrix_ok B -> rows A = rows B -> cols A = cols B ->
  mergeRows onRight onBoth A B = Ok R -> compact R.
Proof.
  intros Hnz HokA HokB Hrows Hcols Hrun.
  destruct (Matrix_ok_Rep A HokA) as (preA & rwsA & HA & HrA & _).
  destruct (Matrix_ok_Rep B HokB) as (preB & rwsB & HB & HrB & _).
  pose proof HokA as ((Hrpos & Hcpos & _) & _).
  rewrite <- Hcols in HrB.
  destruct (mergeRows_spec onRight onBoth Hnz A B preA preB rwsA rwsB)
    as (R' & Hrun' & HR & _); auto.
  rewrite Hrun in Hrun'. inversion Hrun'; subst R'.
  eapply Rep_nil_compact, HR.
Qed.

Lemma add_cells A B :
  Matrix_ok A -> Matrix_ok B -> rows A = rows B -> cols A = cols B ->
  exists R,
    add A B = Ok R /\
    Matrix_ok R /\ compact R /\ rows R = rows A /\ cols R = cols A /\
    forall r c, 0 <= r < rows A -> 0 <= c < cols A ->
      cell R r c = cell A r c + cell B r c.
Proof.
  intros HokA HokB Hrows Hcols.
  destruct (add_correct A B HokA HokB Hrows Hcols) as (R & Hrun & Hok & Hr & Hc & Hget).
  exists R. split; [exact Hrun |]. split; [exact Hok |]. split.
  - unfold add in Hrun. rewrite Hrows, Hcols, !Z.eqb_refl in Hrun. cbn [negb orb] in Hrun.
    eapply (mergeRows_compact (fun v => v) Z.add A B R); eauto.
  - split; [exact Hr |]. split; [exact Hc |].
    intros r c Hr0 Hc0. unfold cell at 1. now rewrite Hget.
Qed.

Lemma subtract_cells A B :
  Matrix_ok A -> Matrix_ok B -> rows A = rows B -> cols A = cols B ->
  exists R,
    subtract A B = Ok R /\
    Matrix_ok R /\ compact R /\ rows R = rows A /\ cols R = cols A /\
    forall r c, 0 <= r < rows A -> 0 <= c < cols A ->
      cell R r c = cell A r c - cell B r c.
Proof.
  intros HokA HokB Hrows Hcols.
  destruct (subtract_correct A B HokA HokB Hrows Hcols)
    as (R & Hrun & Hok & Hr & Hc & Hget).
  exists R. split; [exact Hrun |]. split; [exact Hok |]. split.
  - unfold subtract in Hrun. rewrite Hrows, Hcols, !Z.eqb_refl in Hrun.
    cbn [negb orb] in Hrun.
    eapply (mergeRows_compact Z.opp Z.sub A B R); eauto. intros; lia.
  - split; [exact Hr |]. split; [exact Hc |].
    intros r c Hr0 Hc0. unfold cell at 1. now rewrite Hget.
Qed.



Lemma exampleA_compact : compact exampleA.
Proof. reflexivity. Qed.


Lemma outOfBounds_true M row col :
  ~ (0 <= row < rows M /\ 0 <= col < cols M) -> outOfBounds M row col = true.
Proof.
  intros Hout. unfold outOfBounds.
  destruct (Z.ltb_spec row 0); [reflexivity |].
  destruct (Z.geb_spec row (rows M)); [reflexivity |].
  destruct (Z.ltb_spec col 0); [reflexivity |].
  destruct (Z.geb_spec col (cols M)); [reflexivity |]. lia.
Qed.

Lemma prod_eq_dec (r c r' c' : Z) : {r = r' /\ c = c'} + {(r, c) <> (r', c')}.
Proof.
  destruct (Z.eq_dec r r') as [-> | Hr]; [| right; congruence].
  destruct (Z.eq_dec c c') as [-> | Hc]; [left; auto | right; congruence].
Qed.

(** ** The accessor and the mutator *)



(** X2. [setElement] within the bounds of a matrix of the data model leaves
    a matrix of the data model (I1-I3) with the same dimensions, in which
    every other cell reads as before. *)
Theorem X2_set_keeps_other_cells (M : SparseMatrix) (row col value : Z) :
  Matrix_ok M -> 0 <= row < rows M -> 0 <= col < cols M ->
  exists M',
    setElement M row col value = Ok M' /\
    I1 M' /\ I2 M' /\ I3 M' /\
    rows M' = rows M /\ cols M' = cols M /\
    forall r c, 0 <= r < rows M -> 0 <= c < cols M -> (r, c) <> (row, col) ->
      getElement M' r c = getElement M r c.
Proof.
  intros Hok Hr Hc.
  destruct (setElement_spec M row col value Hok Hr Hc)
    as (M' & Hset & (_ & H1 & H2 & H3) & Hr' & Hc' & _ & Hother).
  exists M'. auto 10.
Qed.

Lemma X2_set_keeps_other_cells_witness :
  Matrix_ok exampleA /\ 0 <= 1 < rows exampleA /\ 0 <= 0 < cols exampleA /\
  exists M',
    setElement exampleA 1 0 9 = Ok M' /\
    I1 M' /\ I2 M' /\ I3 M' /\
    rows M' = rows exampleA /\ cols M' = cols exampleA /\
    forall r c, 0 <= r < rows exampleA -> 0 <= c < cols exampleA -> (r, c) <> (1, 0) ->
      getElement M' r c = getElement exampleA r c.
Proof.
  split; [exact exampleA_ok |]. split; [simpl; lia |]. split; [simpl; lia |].
  apply (X2_set_keeps_other_cells exampleA 1 0 9);
    [exact exampleA_ok | simpl; lia | simpl; lia].
Defined.

(** X3. The stored form is canonical: two matrices of the data model whose
    first row pointer is 0, with the same dimensions and the same value of
    [getElement] at every cell, have the same [values], [col_indices] and
    [row_ptr]. *)
Theorem X3_cells_determine_matrix (A B : SparseMatrix) :
  Matrix_ok A -> compact A -> Matrix_ok B -> compact B ->
  rows A = rows B -> cols A = cols B ->
  (forall r c, 0 <= r < rows A -> 0 <= c < cols A ->
     getElement A r c = getElement B r c) ->
  A = B.
Proof.
  intros HokA HcA HokB HcB Hr Hc Hget.
  apply matrix_ext; auto.
  intros r c Hr0 Hc0. unfold cell. now rewrite Hget.
Qed.

Lemma X3_cells_determine_matrix_witness :
  Matrix_ok exampleA /\ compact exampleA /\
  rows exampleA = rows exampleA /\ cols exampleA = cols exampleA /\
  (forall r c, 0 <= r < rows exampleA -> 0 <= c < cols exampleA ->
     getElement exampleA r c = getElement exampleA r c) /\
  exampleA = exampleA.
Proof.
  split; [exact exampleA_ok |]. split; [exact exampleA_compact |].
  split; [reflexivity |]. split; [reflexivity |].
  split; [intros; reflexivity |].
  apply (X3_cells_determine_matrix exampleA exampleA);
    [exact exampleA_ok | exact exampleA_compact | exact exampleA_ok
    | exact exampleA_compact | reflexivity | reflexivity | intros; reflexivity].
Defined.

(** X4. Two calls of [setElement] on the same cell: the second value
    replaces the first, so the matrix is the one a single call with the
    second value leaves, and writing the former value back restores the
    matrix, array for array. *)
Theorem X4_set_twice (M : SparseMatrix) (row col v1 v2 : Z) :
  Matrix_ok M -> compact M -> 0 <= row < rows M -> 0 <= col < cols M ->
  exists M1 old,
    setElement M row col v1 = Ok M1 /\
    getElement M row col = Ok old /\
    setElement M1 row col v2 = setElement M row col v2 /\
    setElement M1 row col old = Ok M.
Proof.
  intros Hok Hcomp Hr Hc.
  destruct (setElement_cells M row col v1 Hok Hcomp Hr Hc)
    as (M1 & Hset1 & Hok1 & Hcomp1 & Hr1 & Hc1 & Hat1 & Hoth1).
  exists M1, (cell M row col). split; [exact Hset1 |].
  split; [now apply getElement_cell |].
  assert (Hgen : forall v M2, setElement M row col v = Ok M2 ->
            Matrix_ok M2 -> compact M2 -> rows M2 = rows M -> cols M2 = cols M ->
            (forall r c, 0 <= r < rows M -> 0 <= c < cols M ->
               cell M2 r c = if Z.eqb r row && Z.eqb c col then v else cell M r c) ->
            setElement M1 row col v = Ok M2).
  { intros v M2 _ Hok2 Hcomp2 Hr2 Hc2 Hcells.
    destruct (setElement_cells M1 row col v Hok1 Hcomp1) as
      (M3 & Hset3 & Hok3 & Hcomp3 & Hr3 & Hc3 & Hat3 & Hoth3); [lia | lia |].
    rewrite Hset3. f_equal.
    apply matrix_ext; auto; try congruence.
    intros r c Hr0 Hc0. rewrite Hr3, Hr1 in Hr0. rewrite Hc3, Hc1 in Hc0.
    rewrite (Hcells r c Hr0 Hc0).
    destruct (Z.eqb_spec r row) as [-> | Hne]; cbn [andb].
    - destruct (Z.eqb_spec c col) as [-> | Hne]; [exact Hat3 |].
      rewrite Hoth3, Hoth1; auto; try lia; congruence.
    - rewrite Hoth3, Hoth1; auto; try lia; congruence. }
  split.
  - destruct (setElement_cells M row col v2 Hok Hcomp Hr Hc)
      as (M2 & Hset2 & Hok2 & Hcomp2 & Hr2 & Hc2 & Hat2 & Hoth2).
    rewrite Hset2. apply Hgen; auto.
    intros r c Hr0 Hc0.
    destruct (Z.eqb_spec r row) as [-> | Hne]; cbn [andb].
    + destruct (Z.eqb_spec c col) as [-> | Hne]; [exact Hat2 |].
      apply Hoth2; auto. congruence.
    + apply Hoth2; auto. congruence.
  - destruct (setElement_cells M row col (cell M row col) Hok Hcomp Hr Hc)
      as (M2 & Hset2 & Hok2 & Hcomp2 & Hr2 & Hc2 & Hat2 & Hoth2).
    assert (HM2 : M2 = M).
    { apply matrix_ext; auto. intros r c Hr0 Hc0. rewrite Hr2 in Hr0. rewrite Hc2 in Hc0.
      destruct (Z.eq_dec r row) as [-> | Hne].
      - destruct (Z.eq_dec c col) as [-> | Hne]; [exact Hat2 |].
        apply Hoth2; auto. congruence.
      - apply Hoth2; auto. congruence. }
    subst M2. apply Hgen; auto.
    intros r c Hr0 Hc0.
    destruct (Z.eqb_spec r row) as [-> | Hne]; cbn [andb]; [| reflexivity].
    destruct (Z.eqb_spec c col) as [-> | Hne]; reflexivity.
Qed.

Lemma X4_set_twice_witness :
  Matrix_ok exampleA /\ compact exampleA /\
  0 <= 1 < rows exampleA /\ 0 <= 0 < cols exampleA /\
  exists M1 old,
    setElement exampleA 1 0 6 = Ok M1 /\
    getElement exampleA 1 0 = Ok old /\
    setElement M1 1 0 8 = setElement exampleA 1 0 8 /\
    setElement M1 1 0 old = Ok exampleA.
Proof.
  split; [exact exampleA_ok |]. split; [exact exampleA_compact |].
  split; [simpl; lia |]. split; [simpl; lia |].
  apply (X4_set_twice exampleA 1 0 6 8);
    [exact exampleA_ok | exact exampleA_compact | simpl; lia | simpl; lia].
Defined.

(** X5. Calls of [setElement] on two different cells commute: in either
    order they leave the same matrix, array for array. *)
Theorem X5_sets_commute (M : SparseMatrix) (r1 c1 v1 r2 c2 v2 : Z) :
  Matrix_ok M -> compact M ->
  0 <= r1 < rows M -> 0 <= c1 < cols M ->
  0 <= r2 < rows M -> 0 <= c2 < cols M ->
  (r1, c1) <> (r2, c2) ->
  exists M1 M2 M12,
    setElement M r1 c1 v1 = Ok M1 /\ setElement M r2 c2 v2 = Ok M2 /\
    setElement M1 r2 c2 v2 = Ok M12 /\ setElement M2 r1 c1 v1 = Ok M12.
Proof.
  intros Hok Hcomp Hr1 Hc1 Hr2 Hc2 Hne.
  destruct (setElement_cells M r1 c1 v1 Hok Hcomp Hr1 Hc1)
    as (M1 & Hset1 & Hok1 & Hcomp1 & Hrows1 & Hcols1 & Hat1 & Hoth1).
  destruct (setElement_cells M r2 c2 v2 Hok Hcomp Hr2 Hc2)
    as (M2 & Hset2 & Hok2 & Hcomp2 & Hrows2 & Hcols2 & Hat2 & Hoth2).
  destruct (setElement_cells M1 r2 c2 v2 Hok1 Hcomp1)
    as (M12 & Hset12 & Hok12 & Hcomp12 & Hrows12 & Hcols12 & Hat12 & Hoth12);
    [lia | lia |].
  destruct (setElement_cells M2 r1 c1 v1 Hok2 Hcomp2)
    as (M21 & Hset21 & Hok21 & Hcomp21 & Hrows21 & Hcols21 & Hat21 & Hoth21);
    [lia | lia |].
  exists M1, M2, M12. split; [exact Hset1 |]. split; [exact Hset2 |].
  split; [exact Hset12 |]. rewrite Hset21. f_equal.
  apply matrix_ext; auto; try congruence.
  intros r c Hr0 Hc0. rewrite Hrows21, Hrows2 in Hr0. rewrite Hcols21, Hcols2 in Hc0.
  assert (Hneq : (r2, c2) <> (r1, c1)) by congruence.
  destruct (prod_eq_dec r c r1 c1) as [[-> ->] | Hn1].
  - rewrite Hat21, Hoth12, Hat1; auto; lia.
  - destruct (prod_eq_dec r c r2 c2) as [[-> ->] | Hn2].
    + rewrite Hoth21, Hat2, Hat12; auto; lia.
    + rewrite Hoth21, Hoth2, Hoth12, Hoth1; auto; lia.
Qed.

Lemma X5_sets_commute_witness :
  Matrix_ok exampleA /\ compact exampleA /\
  0 <= 1 < rows exampleA /\ 0 <= 0 < cols exampleA /\
  0 <= 0 < rows exampleA /\ 0 <= 1 < cols exampleA /\
  (1, 0) <> (0, 1) /\
  exists M1 M2 M12,
    setElement exampleA 1 0 6 = Ok M1 /\ setElement exampleA 0 1 0 = Ok M2 /\
    setElement M1 0 1 0 = Ok M12 /\ setElement M2 1 0 6 = Ok M12.
Proof.
  split; [exact exampleA_ok |]. split; [exact exampleA_compact |].
  split; [simpl; lia |]. split; [simpl; lia |].
  split; [simpl; lia |]. split; [simpl; lia |].
  split; [discriminate |].
  apply (X5_sets_commute exampleA 1 0 6 0 1 0);
    [exact exampleA_ok | exact exampleA_compact | simpl; lia | simpl; lia
    | simpl; lia | simpl; lia | discriminate].
Defined.

(** ** Sums *)






(** ** Laws of [add] and [subtract] *)

(** X6. [add] is commutative: for two matrices of the data model with the
    same dimensions, [A.add(B)] and [B.add(A)] return the same matrix,
    array for array. *)
Theorem X6_add_commutes (A B : SparseMatrix) :
  Matrix_ok A -> Matrix_ok B -> rows A = rows B -> cols A = cols B ->
  exists S, add A B = Ok S /\ add B A = Ok S.
Proof.
  intros HokA HokB Hr Hc.
  destruct (add_cells A B HokA HokB Hr Hc) as (S & HS & HokS & HcS & HrS & HcoS & HcellS).
  destruct (add_cells B A HokB HokA (eq_sym Hr) (eq_sym Hc))
    as (T & HT & HokT & HcT & HrT & HcoT & HcellT).
  exists S. split; [exact HS |]. rewrite HT. f_equal.
  apply matrix_ext; auto; try congruence.
  intros r c Hr0 Hc0. rewrite HrT in Hr0. rewrite HcoT in Hc0.
  rewrite HcellT, HcellS by lia. lia.
Qed.

Lemma X6_add_commutes_witness :
  Matrix_ok exampleA /\ Matrix_ok exampleB /\
  rows exampleA = rows exampleB /\ cols exampleA = cols exampleB /\
  exists S, add exampleA exampleB = Ok S /\ add exampleB exampleA = Ok S.
Proof.
  split; [exact exampleA_ok |]. split; [exact exampleB_ok |].
  split; [reflexivity |]. split; [reflexivity |].
  apply (X6_add_commutes exampleA exampleB);
    [exact exampleA_ok | exact exampleB_ok | reflexivity | reflexivity].
Defined.

(** X7. The matrix without entries is neutral: adding it on either side
    or subtracting it returns the matrix itself, and a matrix minus itself
    is the matrix without entries ([values] and [col_indices] empty, every
    row pointer 0). *)
Theorem X7_zero_matrix (M : SparseMatrix) :
  Matrix_ok M -> compact M ->
  add M (emptyMatrix (rows M) (cols M)) = Ok M /\
  add (emptyMatrix (rows M) (cols M)) M = Ok M /\
  subtract M (emptyMatrix (rows M) (cols M)) = Ok M /\
  subtract M M = Ok (emptyMatrix (rows M) (cols M)).
Proof.
  intros Hok Hcomp.
  pose proof Hok as ((Hrpos & Hcpos & _) & _).
  pose proof (emptyMatrix_ok (rows M) (cols M) Hrpos Hcpos) as HokE.
  pose proof (emptyMatrix_compact (rows M) (cols M)) as HcE.
  split; [| split; [| split]].
  - destruct (add_cells M (emptyMatrix (rows M) (cols M)) Hok HokE eq_refl eq_refl)
      as (S & HS & HokS & HcS & HrS & HcoS & HcellS).
    rewrite HS. f_equal. apply matrix_ext; auto.
    intros r c Hr0 Hc0. rewrite HrS in Hr0. rewrite HcoS in Hc0.
    rewrite HcellS, emptyMatrix_cell by lia. lia.
  - destruct (add_cells (emptyMatrix (rows M) (cols M)) M HokE Hok eq_refl eq_refl)
      as (S & HS & HokS & HcS & HrS & HcoS & HcellS).
    cbn [rows cols emptyMatrix] in HrS, HcoS, HcellS.
    rewrite HS. f_equal. apply matrix_ext; auto.
    intros r c Hr0 Hc0. rewrite HrS in Hr0. rewrite HcoS in Hc0.
    rewrite HcellS, emptyMatrix_cell by lia. lia.
  - destruct (subtract_cells M (emptyMatrix (rows M) (cols M)) Hok HokE eq_refl eq_refl)
      as (S & HS & HokS & HcS & HrS & HcoS & HcellS).
    rewrite HS. f_equal. apply matrix_ext; auto.
    intros r c Hr0 Hc0. rewrite HrS in Hr0. rewrite HcoS in Hc0.
    rewrite HcellS, emptyMatrix_cell by lia. lia.
  - destruct (subtract_cells M M Hok Hok eq_refl eq_refl)
      as (S & HS & HokS & HcS & HrS & HcoS & HcellS).
    rewrite HS. f_equal. apply matrix_ext; auto.
    intros r c Hr0 Hc0. rewrite HrS in Hr0. rewrite HcoS in Hc0.
    rewrite HcellS, emptyMatrix_cell by lia. lia.
Qed.

Lemma X7_zero_matrix_witness :
  Matrix_ok exampleA /\ compact exampleA /\
  add exampleA (emptyMatrix (rows exampleA) (cols exampleA)) = Ok exampleA /\
  add (emptyMatrix (rows exampleA) (cols exampleA)) exampleA = Ok exampleA /\
  subtract exampleA (emptyMatrix (rows exampleA) (cols exampleA)) = Ok exampleA /\
  subtract exampleA exampleA = Ok (emptyMatrix (rows exampleA) (cols exampleA)).
Proof.
  split; [exact exampleA_ok |]. split; [exact exampleA_compact |].
  apply (X7_zero_matrix exampleA); [exact exampleA_ok | exact exampleA_compact].
Defined.





(** ** Laws of [multiply] *)







(** ** The loader: what it returns and how it fails *)







(** ** The loader: lines and white space *)

Lemma splitOn_nonempty (sep : ascii) (s : text) : splitOn sep s <> [].
Proof.
  destruct s as [| c s]; cbn [splitOn]; [discriminate |].
  destruct (Ascii.eqb c sep); [discriminate |].
  destruct (splitOn sep s); discriminate.
Qed.

Lemma splitOn_app (sep : ascii) (a b : text) :
  splitOn sep (a ++ sep :: b) = splitOn sep a ++ splitOn sep b.
Proof.
  induction a as [| c a IH]; cbn [app splitOn].
  - now rewrite Ascii.eqb_refl.
  - destruct (Ascii.eqb c sep); [now rewrite IH |].
    rewrite IH. pose proof (splitOn_nonempty sep a) as Hne.
    destruct (splitOn sep a) as [| h t]; [contradiction | reflexivity].
Qed.

Lemma splitOn_Forall (P : ascii -> Prop) (sep : ascii) (s : text) :
  Forall P s -> Forall (Forall P) (splitOn sep s).
Proof.
  induction s as [| c s IH]; intros Hall; cbn [splitOn].
  - repeat constructor.
  - apply Forall_cons_iff in Hall. destruct Hall as [Hc Hall].
    specialize (IH Hall).
    destruct (Ascii.eqb c sep); [constructor; [constructor | exact IH] |].
    destruct (splitOn sep s) as [| h t]; [repeat constructor; exact Hc |].
    apply Forall_cons_iff in IH. destruct IH as [Hh Ht].
    constructor; [constructor; assumption | exact Ht].
Qed.

Lemma trim_white (l : text) : Forall (fun c => isWhite c = true) l -> trim l = [].
Proof.
  intros Hall. unfold trim.
  destruct (takeWhile_all isWhite l Hall) as [_ ->]. reflexivity.
Qed.

Lemma contentLines_white (blank : text) :
  Forall (fun c => isWhite c = true) blank -> contentLines blank = [].
Proof.
  intros Hall. unfold contentLines.
  pose proof (splitOn_Forall _ newline blank Hall) as Hs.
  induction Hs as [| l ls Hl _ IH]; [reflexivity |].
  cbn [filter]. now rewrite (trim_white l Hl).
Qed.

Lemma contentLines_app (a b : text) :
  contentLines (a ++ newline :: b) = contentLines a ++ contentLines b.
Proof. unfold contentLines. now rewrite splitOn_app, filter_app. Qed.

Lemma parse_contentLines (c1 c2 : text) :
  contentLines c1 = contentLines c2 -> parse c1 = parse c2.
Proof. intros H. unfold parse, loadFromFile, parseText. now rewrite H. Qed.

(** X14. Lines of white space do not count: a run of white space (line
    breaks included) put between two lines, before the first line or after
    the last one leaves what the loader returns unchanged, the line numbers
    of its errors included. *)
Theorem X14_blank_lines_ignored (a blank b : text) :
  Forall (fun c => isWhite c = true) blank ->
  parse (a ++ newline :: blank ++ newline :: b) = parse (a ++ newline :: b) /\
  parse (blank ++ newline :: b) = parse b /\
  parse (a ++ newline :: blank) = parse a.
Proof.
  intros Hall. pose proof (contentLines_white blank Hall) as Hb.
  split; [| split]; apply parse_contentLines.
  - now rewrite !contentLines_app, Hb.
  - now rewrite contentLines_app, Hb.
  - now rewrite contentLines_app, Hb, app_nil_r.
Qed.

Lemma X14_blank_lines_ignored_witness :
  Forall (fun c => isWhite c = true) (str "  ") /\
  parse (str "rows=2" ++ newline :: str "  " ++ newline :: str "cols=2")
    = parse (str "rows=2" ++ newline :: str "cols=2") /\
  parse (str "  " ++ newline :: str "cols=2") = parse (str "cols=2") /\
  parse (str "rows=2" ++ newline :: str "  ") = parse (str "rows=2").
Proof.
  assert (Hall : Forall (fun c => isWhite c = true) (str "  "))
    by (repeat constructor).
  split; [exact Hall |].
  apply (X14_blank_lines_ignored (str "rows=2") (str "  ") (str "cols=2") Hall).
Defined.

Lemma dropWhile_white_app (w x : text) :
  Forall (fun c => isWhite c = true) w ->
  dropWhile isWhite (w ++ x) = dropWhile isWhite x.
Proof.
  induction 1 as [| c w Hc _ IH]; [reflexivity |].
  cbn [app dropWhile]. now rewrite Hc.
Qed.

Lemma trim_pad (w1 w2 m : text) (a z : ascii) :
  Forall (fun c => isWhite c = true) w1 -> Forall (fun c => isWhite c = true) w2 ->
  isWhite a = false -> isWhite z = false ->
  trim (w1 ++ a :: m ++ z :: w2) = a :: m ++ [z].
Proof.
  intros H1 H2 Ha Hz. unfold trim.
  rewrite (dropWhile_white_app w1 _ H1). cbn [dropWhile]. rewrite Ha.
  replace (rev (a :: m ++ z :: w2)) with (rev w2 ++ z :: rev (a :: m)).
  - rewrite dropWhile_white_app by (apply Forall_rev; exact H2).
    cbn [dropWhile]. rewrite Hz.
    change (z :: rev (a :: m)) with ([z] ++ rev (a :: m)).
    rewrite rev_app_distr, rev_involutive. reflexivity.
  - change (a :: m ++ z :: w2) with ((a :: m) ++ z :: w2).
    rewrite rev_app_distr. cbn [rev]. rewrite <- app_assoc. reflexivity.
Qed.

Lemma stripWhite_idem (t : text) : stripWhite (stripWhite t) = stripWhite t.
Proof.
  unfold stripWhite. induction t as [| c t IH]; [reflexivity |].
  cbn [filter]. destruct (isWhite c) eqn:E; cbn [negb]; [exact IH |].
  cbn [filter]. rewrite E. cbn [negb]. now rewrite IH.
Qed.

Lemma sliceInner_wrap (a z : ascii) (m : text) : sliceInner (a :: m ++ [z]) = m.
Proof. unfold sliceInner. cbn [tl]. apply removelast_last. Qed.

Lemma endsWith_last (z : ascii) (m : text) : endsWith z (m ++ [z]) = true.
Proof.
  unfold endsWith. rewrite rev_app_distr. cbn [rev app startsWith].
  apply Ascii.eqb_refl.
Qed.

(** X15. White space does not count in an entry line: around the
    parentheses and anywhere between them, inside a number included, it is
    removed before the fields are read, so the line yields what the line
    without any white space yields. *)
Theorem X15_white_space_in_entry (i : Z) (w1 w2 inner : text) :
  Forall (fun c => isWhite c = true) w1 -> Forall (fun c => isWhite c = true) w2 ->
  parseFields i (w1 ++ "("%char :: inner ++ ")"%char :: w2)
  = parseFields i ("("%char :: stripWhite inner ++ [")"%char]).
Proof.
  intros H1 H2. unfold parseFields.
  rewrite (trim_pad w1 w2 inner "(" ")" H1 H2 eq_refl eq_refl).
  rewrite (trim_id "(" ")" (stripWhite inner) eq_refl eq_refl).
  change ("("%char :: inner ++ [")"%char]) with (("("%char :: inner) ++ [")"%char]).
  change ("("%char :: stripWhite inner ++ [")"%char])
    with (("("%char :: stripWhite inner) ++ [")"%char]).
  rewrite !endsWith_last.
  cbn [app startsWith]. rewrite !sliceInner_wrap, stripWhite_idem. reflexivity.
Qed.

Lemma X15_white_space_in_entry_witness :
  Forall (fun c => isWhite c = true) (str " ") /\
  Forall (fun c => isWhite c = true) (str "  ") /\
  parseFields 2 (str " " ++ "("%char :: str "0 , 1 2, 7 " ++ ")"%char :: str "  ")
  = parseFields 2 ("("%char :: stripWhite (str "0 , 1 2, 7 ") ++ [")"%char]) /\
  parseFields 2 ("("%char :: stripWhite (str "0 , 1 2, 7 ") ++ [")"%char])
  = Ok (0, 12, 7).
Proof.
  assert (H1 : Forall (fun c => isWhite c = true) (str " ")) by (repeat constructor).
  assert (H2 : Forall (fun c => isWhite c = true) (str "  ")) by (repeat constructor).
  split; [exact H1 |]. split; [exact H2 |].
  split; [| reflexivity].
  apply (X15_white_space_in_entry 2 (str " ") (str "  ") (str "0 , 1 2, 7 ") H1 H2).
Defined.

(** ** The loader: the error that is reported *)




(** ** The loader: the order of the entry lines *)







(** ** The text that is written *)












(** ** The menu *)

Lemma textEqb_eq (a : text) : forall b, textEqb a b = true <-> a = b.
Proof.
  induction a as [| x a IH]; intros [| y b]; cbn [textEqb];
    try (split; [discriminate | discriminate]); [tauto |].
  rewrite andb_true_iff, Ascii.eqb_eq, IH. split.
  - intros [-> ->]. reflexivity.
  - intros H. inversion H. auto.
Qed.

Lemma textEqb_refl (a : text) : textEqb a a = true.
Proof. now apply textEqb_eq. Qed.





(** ** Sequences of calls and the new matrix *)

(** X23. A sequence of calls of [setElement] within the bounds of a matrix
    of the data model, as the loop at the end of the loader makes them: all
    the calls return, and each cell ends with the value of the last call
    that names it, or with its former value when no call names it. *)
Theorem X23_last_call_wins (M : SparseMatrix) (calls : list entry) :
  Matrix_ok M -> Forall (inBounds (rows M) (cols M)) calls ->
  exists M',
    populate M calls = Ok M' /\
    forall r c, 0 <= r < rows M -> 0 <= c < cols M ->
      exists old,
        getElement M r c = Ok old /\
        getElement M' r c = Ok (lastWrite calls r c old).
Proof.
  intros Hok Hall.
  destruct (populate_spec calls M Hok Hall) as (M' & Hpop & _ & _ & _ & Hget).
  exists M'. split; [exact Hpop |].
  intros r c Hr Hc. exists (cell M r c).
  split; [now apply getElement_cell | now apply Hget].
Qed.

Lemma X23_last_call_wins_witness :
  Matrix_ok exampleA /\
  Forall (inBounds (rows exampleA) (cols exampleA)) [(1, 0, 5); (0, 0, 0); (1, 0, 7)] /\
  exists M',
    populate exampleA [(1, 0, 5); (0, 0, 0); (1, 0, 7)] = Ok M' /\
    forall r c, 0 <= r < rows exampleA -> 0 <= c < cols exampleA ->
      exists old,
        getElement exampleA r c = Ok old /\
        getElement M' r c = Ok (lastWrite [(1, 0, 5); (0, 0, 0); (1, 0, 7)] r c old).
Proof.
  assert (Hall : Forall (inBounds (rows exampleA) (cols exampleA))
                   [(1, 0, 5); (0, 0, 0); (1, 0, 7)])
    by (repeat constructor; simpl; lia).
  split; [exact exampleA_ok |]. split; [exact Hall |].
  apply (X23_last_call_wins exampleA _ exampleA_ok Hall).
Defined.

(** X24. The matrix the constructor builds without a file stores nothing:
    with positive dimensions it is a matrix of the data model in which
    every cell reads 0, and with a dimension that is not positive (the
    default 0 x 0) every call of [getElement] and [setElement] throws the
    index error. *)
Theorem X24_new_matrix (numRows numCols r c v : Z) :
  values (emptyMatrix numRows numCols) = [] /\
  (0 < numRows -> 0 < numCols ->
     I1 (emptyMatrix numRows numCols) /\ I2 (emptyMatrix numRows numCols) /\
     I3 (emptyMatrix numRows numCols)) /\
  (0 <= r < numRows -> 0 <= c < numCols ->
     getElement (emptyMatrix numRows numCols) r c = Ok 0) /\
  (numRows <= 0 \/ numCols <= 0 ->
     getElement (emptyMatrix numRows numCols) r c = Err IndicesOutOfBounds /\
     setElement (emptyMatrix numRows numCols) r c v = Err IndicesOutOfBounds).
Proof.
  split; [reflexivity |]. split; [| split].
  - intros HR HC. destruct (emptyMatrix_ok numRows numCols HR HC) as (_ & H1 & H2 & H3).
    auto.
  - intros Hr Hc.
    assert (Hok : Matrix_ok (emptyMatrix numRows numCols))
      by (apply emptyMatrix_ok; lia).
    rewrite (getElement_cell _ r c Hok Hr Hc). f_equal. apply emptyMatrix_cell.
  - intros Hdim.
    assert (Hb : outOfBounds (emptyMatrix numRows numCols) r c = true).
    { apply outOfBounds_true. cbn [rows cols emptyMatrix]. lia. }
    unfold getElement, setElement. rewrite Hb. auto.
Qed.

(** ** The header *)

Lemma lower_digit (c : ascii) : isDigit (lower c) = isDigit c.
Proof. destruct c as [[] [] [] [] [] [] [] []]; reflexivity. Qed.

Lemma lower_of_digit (c : ascii) : isDigit c = true -> lower c = c.
Proof. destruct c as [[] [] [] [] [] [] [] []]; intros H; try reflexivity; discriminate. Qed.

Lemma lower_idem (c : ascii) : lower (lower c) = lower c.
Proof. destruct c as [[] [] [] [] [] [] [] []]; reflexivity. Qed.

Lemma takeWhile_digit_lower (s : text) :
  takeWhile isDigit (map lower s) = takeWhile isDigit s.
Proof.
  induction s as [| c s IH]; [reflexivity |].
  cbn [map takeWhile]. rewrite lower_digit.
  destruct (isDigit c) eqn:E; [| reflexivity].
  now rewrite IH, (lower_of_digit c E).
Qed.

Lemma matchLiteral_lower (pat : text) : forall s,
  matchLiteral pat (map lower s) = option_map (map lower) (matchLiteral pat s).
Proof.
  induction pat as [| p pat IH]; intros s; [reflexivity |].
  destruct s as [| c s]; [reflexivity |].
  cbn [map matchLiteral]. rewrite lower_idem.
  destruct (Ascii.eqb (lower c) p); [apply IH | reflexivity].
Qed.

Lemma matchKeyDigits_lower (key : text) : forall s,
  matchKeyDigits key (map lower s) = matchKeyDigits key s.
Proof.
  assert (Hhere : forall s,
            match matchLiteral key (map lower s) with
            | Some rest => match takeWhile isDigit rest with
                           | [] => None
                           | d :: ds => Some (d :: ds)
                           end
            | None => None
            end
            = match matchLiteral key s with
              | Some rest => match takeWhile isDigit rest with
                             | [] => None
                             | d :: ds => Some (d :: ds)
                             end
              | None => None
              end).
  { intros s. rewrite matchLiteral_lower.
    destruct (matchLiteral key s) as [rest |]; [| reflexivity].
    cbn [option_map]. now rewrite takeWhile_digit_lower. }
  induction s as [| c s IH].
  - reflexivity.
  - change (map lower (c :: s)) with (lower c :: map lower s).
    cbn [matchKeyDigits].
    change (lower c :: map lower s) with (map lower (c :: s)).
    rewrite Hhere, IH. reflexivity.
Qed.

(** X25. The two header lines are read without regard to the case of the
    letters: header lines that differ only in the case of their letters
    give the same dimensions, or the same error. *)
Theorem X25_header_ignores_case (l0 l0' l1 l1' : text) (rest : list text) :
  map lower l0 = map lower l0' -> map lower l1 = map lower l1' ->
  parseHeader (l0 :: l1 :: rest) = parseHeader (l0' :: l1' :: rest).
Proof.
  intros H0 H1. unfold parseHeader.
  rewrite <- (matchKeyDigits_lower (str "rows=") l0), H0, matchKeyDigits_lower.
  rewrite <- (matchKeyDigits_lower (str "cols=") l1), H1, matchKeyDigits_lower.
  reflexivity.
Qed.

Lemma X25_header_ignores_case_witness :
  map lower (str "Rows=2") = map lower (str "rOWS=2") /\
  map lower (str "COLS=3") = map lower (str "cols=3") /\
  parseHeader [str "Rows=2"; str "COLS=3"] = parseHeader [str "rOWS=2"; str "cols=3"] /\
  parseHeader [str "rOWS=2"; str "cols=3"] = Ok (2, 3, []).
Proof.
  split; [reflexivity |]. split; [reflexivity |]. split; [| reflexivity].
  apply (X25_header_ignores_case (str "Rows=2") (str "rOWS=2") (str "COLS=3")
           (str "cols=3") []); reflexivity.
Defined.

(** ** The identity *)






(** ** What [parseInt] lets through *)






